(** * Family tree explorer: embedding of [Main Project.py]

    Python objects are modelled as references ([ref]) into a store
    ([heap]) mapping each reference to the fields of the object.  The
    methods of [PersonBase] and [FamilyTree] are written in a small state
    monad over this store, so that field writes (the spouse setter,
    [set_parents], [set_children]) and field reads (the relationship
    methods) appear as they do in the source. *)

From Stdlib Require Import List Bool Arith ZArith String Ascii Lia QArith.
From Stdlib Require Import Permutation Sorted.
Import ListNotations.
Open Scope list_scope.

(** ** Dates ([datetime.date]) *)

Record date := mkDate { year : Z; month : Z; day : Z }.

Definition is_leap (y : Z) : bool :=
  (Z.eqb (y mod 4) 0 && negb (Z.eqb (y mod 100) 0)) || Z.eqb (y mod 400) 0.

(** [_DAYS_BEFORE_MONTH] of CPython's [datetime] module. *)
Definition days_before_month (y m : Z) : Z :=
  let base :=
    match m with
    | 1%Z => 0 | 2%Z => 31 | 3%Z => 59 | 4%Z => 90 | 5%Z => 120 | 6%Z => 151
    | 7%Z => 181 | 8%Z => 212 | 9%Z => 243 | 10%Z => 273 | 11%Z => 304
    | _ => 334
    end%Z in
  if (Z.ltb 2 m && is_leap y)%bool then (base + 1)%Z else base.

Definition days_before_year (y : Z) : Z :=
  let y1 := (y - 1)%Z in
  (y1 * 365 + y1 / 4 - y1 / 100 + y1 / 400)%Z.

(** [date.toordinal]: proleptic Gregorian day number. *)
Definition toordinal (d : date) : Z :=
  (days_before_year (year d) + days_before_month (year d) (month d) + day d)%Z.

(** [(d2 - d1).days] *)
Definition days_between (d2 d1 : date) : Z := (toordinal d2 - toordinal d1)%Z.

(** [str(date)]: ISO format, year on four digits, month and day on two. *)
Fixpoint digits_rev (fuel : nat) (n : Z) : list ascii :=
  match fuel with
  | O => []
  | S f =>
      ascii_of_nat (48 + Z.to_nat (n mod 10)) ::
      (if Z.eqb (n / 10) 0 then [] else digits_rev f (n / 10))
  end.

Definition pad_digits (width : nat) (n : Z) : string :=
  let ds := rev (digits_rev 20 n) in
  string_of_list_ascii (app (repeat "0"%char (width - List.length ds)) ds).

Definition date_str (d : date) : string :=
  (pad_digits 4 (year d) ++ "-" ++ pad_digits 2 (month d) ++ "-" ++
   pad_digits 2 (day d))%string.

(** ** Objects and the store *)

Definition ref := nat.

(** The two subclasses of [PersonBase]; only [DeceasedPerson] has
    [_death_date]. *)
Inductive variant := LivingPerson | DeceasedPerson (death_date : date).

Record person := mkPerson {
  name : string;            (* _name *)
  birth_date : date;        (* _birth_date *)
  kind : variant;           (* the class of the object *)
  parents : list ref;       (* _parents *)
  children : list ref;      (* _children *)
  spouse : option ref       (* _spouse *)
}.

(** [PersonBase.__init__] (and [DeceasedPerson.__init__]). *)
Definition new_person (n : string) (b : date) (k : variant) : person :=
  mkPerson n b k [] [] None.

Definition set_parents_field (p : person) (ps : list ref) : person :=
  mkPerson (name p) (birth_date p) (kind p) ps (children p) (spouse p).
Definition set_children_field (p : person) (cs : list ref) : person :=
  mkPerson (name p) (birth_date p) (kind p) (parents p) cs (spouse p).
Definition set_spouse_field (p : person) (s : option ref) : person :=
  mkPerson (name p) (birth_date p) (kind p) (parents p) (children p) s.

Definition heap := ref -> person.

Definition upd (h : heap) (r : ref) (p : person) : heap :=
  fun x => if Nat.eqb x r then p else h x.

(** ** A state monad over the store *)

Definition ST (A : Type) := heap -> A * heap.

Definition ret {A} (a : A) : ST A := fun h => (a, h).
Definition bind {A B} (m : ST A) (k : A -> ST B) : ST B :=
  fun h => let (a, h') := m h in k a h'.

Notation "x <- m ;; k" := (bind m (fun x => k))
  (at level 61, m at next level, right associativity).
Notation "m ;;; k" := (bind m (fun _ => k))
  (at level 61, right associativity).

(** Attribute access [obj.field] reads the object; assignment to a field
    writes it back. *)
Definition read (r : ref) : ST person := fun h => (h r, h).
Definition write (r : ref) (p : person) : ST unit := fun h => (tt, upd h r p).

(** [for x in xs: body] *)
Fixpoint for_each {A} (xs : list A) (body : A -> ST unit) : ST unit :=
  match xs with
  | [] => ret tt
  | x :: xs' => body x ;;; for_each xs' body
  end.

(** A [for] loop that updates a local accumulator. *)
Fixpoint fold_st {A B} (f : B -> A -> ST B) (xs : list A) (acc : B) : ST B :=
  match xs with
  | [] => ret acc
  | x :: xs' => acc' <- f acc x ;; fold_st f xs' acc'
  end.

(** ** Python sets of objects (identity hashing: [PersonBase] defines no
    [__eq__]/[__hash__]).  A set is a duplicate-free list; the order of
    [list(s)] is not specified by Python and no claim depends on it. *)

Definition set_add (x : ref) (s : list ref) : list ref :=
  if existsb (Nat.eqb x) s then s else s ++ [x].

Definition set_update (s : list ref) (xs : list ref) : list ref :=
  fold_left (fun acc x => set_add x acc) xs s.

Definition set_discard (x : ref) (s : list ref) : list ref :=
  filter (fun y => negb (Nat.eqb y x)) s.

(** ** [PersonBase] mutators *)

(** [@spouse.setter]: [self._spouse = spouse; spouse._spouse = self]. *)
Definition set_spouse (self other : ref) : ST unit :=
  sp <- read self ;;
  write self (set_spouse_field sp (Some other)) ;;;
  op <- read other ;;
  write other (set_spouse_field op (Some self)).

(** [set_parents]: [self._parents = parents], then
    [parent._children.append(self)] for each parent.  Lists are values
    here: this is the copy model, exact when no list object is shared
    between persons (as in the seed, which passes a new list display to
    each call); the shared-list model below has the general semantics. *)
Definition set_parents (self : ref) (ps : list ref) : ST unit :=
  sp <- read self ;;
  write self (set_parents_field sp ps) ;;;
  for_each ps (fun parent =>
    pp <- read parent ;;
    write parent (set_children_field pp (children pp ++ [self]))).

(** [set_children]: [self._children = children], then
    [child._parents.append(self)] for each child; the copy model, as
    for [set_parents]. *)
Definition set_children (self : ref) (cs : list ref) : ST unit :=
  sp <- read self ;;
  write self (set_children_field sp cs) ;;;
  for_each cs (fun child =>
    cp <- read child ;;
    write child (set_parents_field cp (parents cp ++ [self]))).

(** [display_details], dispatched on the class. *)
Definition display_details (p : person) : string :=
  match kind p with
  | LivingPerson =>
      ("Name: " ++ name p ++ ", Birth Date: " ++ date_str (birth_date p) ++
       " (Alive)")%string
  | DeceasedPerson d =>
      ("Name: " ++ name p ++ ", Birth Date: " ++ date_str (birth_date p) ++
       ", Death Date: " ++ date_str d)%string
  end.

Definition is_living (p : person) : bool :=
  match kind p with LivingPerson => true | DeceasedPerson _ => false end.

(** ** [FamilyTree] relationship methods *)

Definition find_parents (person : ref) : ST (list ref) :=
  p <- read person ;; ret (parents p).

Definition find_grandparents (person : ref) : ST (list ref) :=
  p <- read person ;;
  fold_st (fun gps parent =>
             pp <- read parent ;; ret (gps ++ parents pp))
          (parents p) [].

Definition find_siblings (person : ref) : ST (list ref) :=
  p <- read person ;;
  siblings <- fold_st (fun sibs parent =>
                         pp <- read parent ;; ret (set_update sibs (children pp)))
                      (parents p) [] ;;
  ret (set_discard person siblings).

Definition find_cousins (person : ref) : ST (list ref) :=
  p <- read person ;;
  fold_st (fun cousins parent =>
             auncles <- find_siblings parent ;;
             fold_st (fun cousins sibling =>
                        sp <- read sibling ;; ret (cousins ++ children sp))
                     auncles cousins)
          (parents p) [].

Definition find_immediate_family (person : ref) : ST (list ref) :=
  p <- read person ;;
  let fam := set_update [] (parents p) in
  sibs <- find_siblings person ;;
  let fam := set_update fam sibs in
  p' <- read person ;;
  (* [if person.spouse:] a person object is always truthy *)
  let fam := match spouse p' with Some s => set_add s fam | None => fam end in
  let fam := set_update fam (children p') in
  ret fam.

(** [[member for member in s if isinstance(member, LivingPerson)]] *)
Fixpoint filter_living (xs : list ref) : ST (list ref) :=
  match xs with
  | [] => ret []
  | x :: xs' =>
      px <- read x ;;
      rest <- filter_living xs' ;;
      ret (if is_living px then x :: rest else rest)
  end.

Definition find_extended_family (person : ref) : ST (list ref) :=
  imm <- find_immediate_family person ;;
  let ext := set_update [] imm in
  p <- read person ;;
  ext <- fold_st (fun ext parent =>
                    auncles <- find_siblings parent ;;
                    fold_st (fun ext sibling =>
                               let ext := set_add sibling ext in
                               sp <- read sibling ;;
                               ret (set_update ext (children sp)))
                            auncles ext)
                 (parents p) ext ;;
  filter_living ext.

(** ** The registry [FamilyTree.members]: a [dict] from name to object,
    kept in insertion order; assigning an existing key keeps its place. *)

Definition registry := list (string * ref).

Fixpoint dict_get (d : registry) (k : string) : option ref :=
  match d with
  | [] => None
  | (k', v) :: d' => if String.eqb k k' then Some v else dict_get d' k
  end.

Fixpoint dict_set (d : registry) (k : string) (v : ref) : registry :=
  match d with
  | [] => [(k, v)]
  | (k', v') :: d' =>
      if String.eqb k k' then (k', v) :: d' else (k', v') :: dict_set d' k v
  end.

(** [dict.values()] *)
Definition dict_values (d : registry) : list ref := map snd d.

(** [get_person]: [self.members.get(name, None)]. *)
Definition get_person (members : registry) (n : string) : option ref :=
  dict_get members n.

(** [get_member_details]; a person object is always truthy. *)
Definition get_member_details (members : registry) (n : string) : ST string :=
  match get_person members n with
  | Some r => p <- read r ;; ret (display_details p)
  | None => ret "Person not found."%string
  end.

(** ** [get_birthdays_calendar] *)

Definition md_key := (Z * Z)%type.

Definition key_eqb (a b : md_key) : bool :=
  Z.eqb (fst a) (fst b) && Z.eqb (snd a) (snd b).

(** Tuple comparison [a < b] on [(month, day)]. *)
Definition key_ltb (a b : md_key) : bool :=
  Z.ltb (fst a) (fst b) || (Z.eqb (fst a) (fst b) && Z.ltb (snd a) (snd b)).

Definition calendar := list (md_key * list string).

(** [birthday_calendar[key].append(name)] on a [defaultdict(list)]. *)
Fixpoint cal_append (c : calendar) (k : md_key) (n : string) : calendar :=
  match c with
  | [] => [(k, [n])]
  | (k', ns) :: c' =>
      if key_eqb k k' then (k', ns ++ [n]) :: c' else (k', ns) :: cal_append c' k n
  end.

(** [sorted(birthday_calendar.items())].  The keys of a dict are distinct,
    so tuple comparison of items is decided by the keys alone; any correct
    sort gives this order, computed here by insertion. *)
Fixpoint cal_insert (e : md_key * list string) (c : calendar) : calendar :=
  match c with
  | [] => [e]
  | e' :: c' => if key_ltb (fst e') (fst e) then e' :: cal_insert e c' else e :: e' :: c'
  end.

Fixpoint cal_sort (c : calendar) : calendar :=
  match c with
  | [] => []
  | e :: c' => cal_insert e (cal_sort c')
  end.

Definition birth_key (p : person) : md_key := (month (birth_date p), day (birth_date p)).

(** A [date] object is always truthy, so [if person.birth_date:] always
    holds. *)
Definition get_birthdays_calendar (members : registry) : ST calendar :=
  cal <- fold_st (fun cal r => p <- read r ;; ret (cal_append cal (birth_key p) (name p)))
                 (dict_values members) [] ;;
  ret (cal_sort cal).

(** ** [calculate_average_age] *)

Definition age_at_death (p : person) : Z :=
  match kind p with
  | DeceasedPerson d => days_between d (birth_date p) / 365
  | LivingPerson => 0
  end.

(** [total_age / count if count > 0 else 0].  Python's [int / int]
    returns the double nearest to the exact quotient, which is modelled
    here as a rational. *)
Definition calculate_average_age (members : registry) : ST Q :=
  acc <- fold_st (fun (acc : Z * Z) r =>
                    p <- read r ;;
                    ret (match kind p with
                         | DeceasedPerson _ => (fst acc + age_at_death p, snd acc + 1)%Z
                         | LivingPerson => acc
                         end))
                 (dict_values members) (0%Z, 0%Z) ;;
  let (total_age, count) := acc in
  ret (if Z.ltb 0 count then (inject_Z total_age / inject_Z count)%Q else 0%Q).

(** ** The seed dataset *)

Definition cornelia : ref := 0%nat.
Definition otto : ref := 1%nat.
Definition anna : ref := 2%nat.
Definition raj : ref := 3%nat.
Definition maria : ref := 4%nat.
Definition hans : ref := 5%nat.
Definition child1 : ref := 6%nat.
Definition child2 : ref := 7%nat.

Definition seed_objects : list person :=
  [ new_person "Cornelia Emmersohn" (mkDate 1968 5 20) LivingPerson;
    new_person "Otto Emmersohn" (mkDate 1965 8 15) (DeceasedPerson (mkDate 2020 4 10));
    new_person "Anna Singh" (mkDate 1945 4 10) (DeceasedPerson (mkDate 2015 3 20));
    new_person "Raj Singh" (mkDate 1942 6 5) (DeceasedPerson (mkDate 2010 11 5));
    new_person "Maria MÃ¼ller" (mkDate 1943 6 5) (DeceasedPerson (mkDate 2005 9 15));
    new_person "Hans Emmersohn" (mkDate 1940 3 22) (DeceasedPerson (mkDate 2012 7 10));
    new_person "Lucas Emmersohn" (mkDate 1992 11 12) LivingPerson;
    new_person "Emma Emmersohn" (mkDate 1995 2 28) LivingPerson ].

(** The store right after the eight constructor calls; references past
    the eighth are never allocated and hold an unused placeholder. *)
Definition seed_heap0 : heap :=
  fun r => nth r seed_objects (new_person "" (mkDate 1 1 1) LivingPerson).

Definition seed_links : ST unit :=
  set_parents cornelia [anna; raj] ;;;
  set_parents otto [maria; hans] ;;;
  set_children cornelia [child1; child2] ;;;
  set_children otto [child1; child2] ;;;
  set_spouse cornelia otto.

Definition seed_heap : heap := snd (seed_links seed_heap0).

(** [family_tree.members = {cornelia.name: cornelia, ...}] *)
Definition seed_members : registry :=
  fold_left (fun d r => dict_set d (name (seed_heap r)) r)
            [cornelia; otto; anna; raj; maria; hans; child1; child2] [].

(** ** Specification-side definitions, written from the spec's words to
    be compared with the embeddings above *)

(** Cousins: for each parent of [p], for each sibling of that parent,
    all of that sibling's children. *)
Definition cousins_spec (h : heap) (p : ref) : list ref :=
  List.concat (map (fun q => List.concat (map (fun s => children (h s)) (fst (find_siblings q h))))
              (parents (h p))).

(** Mean over the [DeceasedPerson] members of [(death - birth).days // 365],
    zero when there is none. *)
Definition average_age_spec (h : heap) (members : registry) : Q :=
  let ds := filter (fun r => negb (is_living (h r))) (dict_values members) in
  match ds with
  | [] => 0%Q
  | _ => (inject_Z (fold_right Z.add 0%Z (map (fun r => age_at_death (h r)) ds)) /
          inject_Z (Z.of_nat (List.length ds)))%Q
  end.

(** A small family in which both parents of [4] are children of [0],
    so their sibling sets overlap in [3]. *)
Definition dup_heap0 : heap := fun _ => new_person "" (mkDate 2000 1 1) LivingPerson.

Definition dup_links : ST unit :=
  set_children 0%nat [1; 2; 3]%nat ;;;
  set_children 1%nat [4]%nat ;;;
  set_children 2%nat [4]%nat ;;;
  set_children 3%nat [5]%nat.

Definition dup_heap : heap := snd (dup_links dup_heap0).

(** [x] is a reference held in some link field of the store: an
    existing object, not a copy made by the query. *)
Definition linked (h : heap) (x : ref) : Prop :=
  exists y, In x (parents (h y)) \/ In x (children (h y)) \/ spouse (h y) = Some x.

(** Spouse symmetry over the whole store. *)
Definition spouse_symmetric (h : heap) : Prop :=
  forall x s, spouse (h x) = Some s -> spouse (h s) = Some x.

(** Parent links have their child back-link, over a list of
    references. *)
Definition backlinked_on (h : heap) (rs : list ref) : Prop :=
  forall x q, In x rs -> In q (parents (h x)) -> In x (children (h q)).

Definition backlinked_onb (h : heap) (rs : list ref) : bool :=
  forallb (fun x => forallb (fun q => existsb (Nat.eqb x) (children (h q))) (parents (h x))) rs.

(** Cornelia marries Otto, then Anna, through the spouse setter. *)
Definition relink_heap : heap :=
  snd ((set_spouse cornelia otto ;;; set_spouse cornelia anna) seed_heap0).

(** Lookup of a key in a calendar (first entry with that key). *)
Fixpoint cal_lookup (k : md_key) (c : calendar) : option (list string) :=
  match c with
  | [] => None
  | (k', ns) :: c' => if key_eqb k' k then Some ns else cal_lookup k c'
  end.

(** Names of the members born on [k], in registry iteration order. *)
Definition names_with (h : heap) (k : md_key) (xs : list ref) : list string :=
  map (fun r => name (h r)) (filter (fun r => key_eqb (birth_key (h r)) k) xs).

Definition key_lt (a b : md_key * list string) : Prop := key_ltb (fst a) (fst b) = true.

(** ** [calculate_children_statistics] *)

(** [children_data[person.name] = children_count] on a [dict] keyed by
    name: an existing key keeps its place and takes the new value. *)
Fixpoint sdict_set {A} (d : list (string * A)) (k : string) (v : A) : list (string * A) :=
  match d with
  | [] => [(k, v)]
  | (k', v') :: d' => if String.eqb k k' then (k', v) :: d' else (k', v') :: sdict_set d' k v
  end.

(** [average_children = total_children / num_people if num_people > 0 else 0];
    [len(self.members)] is the number of keys. *)
Definition calculate_children_statistics (members : registry) : ST (list (string * nat) * Q) :=
  let num_people := List.length members in
  acc <- fold_st (fun (acc : nat * list (string * nat)) r =>
                    p <- read r ;;
                    let children_count := List.length (children p) in
                    ret ((fst acc + children_count)%nat,
                         sdict_set (snd acc) (name p) children_count))
                 (dict_values members) (0%nat, []) ;;
  let (total_children, children_data) := acc in
  ret (children_data,
       if Nat.ltb 0 num_people
       then (inject_Z (Z.of_nat total_children) / inject_Z (Z.of_nat num_people))%Q
       else 0%Q).

(** A registry built as [family_tree.members = {p.name: p, ...}] from the
    listed objects, in order. *)
Definition registry_of (h : heap) (rs : list ref) : registry :=
  fold_left (fun d r => dict_set d (name (h r)) r) rs [].

(** The last of [rs] whose name is [n]. *)
Fixpoint last_named (h : heap) (n : string) (rs : list ref) : option ref :=
  match rs with
  | [] => None
  | r :: rs' =>
      match last_named h n rs' with
      | Some r' => Some r'
      | None => if String.eqb (name (h r)) n then Some r else None
      end
  end.

(** ** Shared list objects

    [self._parents = parents] and [self._children = children] store the
    caller's list object itself, and [append] changes that object in
    place, so two persons can hold the same list and an append through
    one of them shows through the other.  Here every list object has an
    identity ([lid]); a person's [_parents] and [_children] fields hold
    identities, and the store maps each identity to the list's current
    contents.  The copy model above is what this model looks like when
    no list object is shared ([deref] below, and the agreement theorems
    in the proofs). *)

Definition lid := nat.

Record aperson := mkAPerson {
  a_name : string;
  a_birth_date : date;
  a_kind : variant;
  a_parents : lid;          (* _parents, a list object *)
  a_children : lid;         (* _children, a list object *)
  a_spouse : option ref     (* _spouse *)
}.

Record astore := mkAStore {
  objs : ref -> aperson;
  lists : lid -> list ref;
  next_lid : lid            (* identity of the next list allocated *)
}.

Definition aupd_obj (s : astore) (r : ref) (p : aperson) : astore :=
  mkAStore (fun x => if Nat.eqb x r then p else objs s x) (lists s) (next_lid s).

(** [l.append(x)] *)
Definition list_append (s : astore) (l : lid) (x : ref) : astore :=
  mkAStore (objs s) (fun k => if Nat.eqb k l then lists s l ++ [x] else lists s k)
           (next_lid s).

(** A list display [[x1, ..., xn]] creates a new list object. *)
Definition list_new (s : astore) (xs : list ref) : lid * astore :=
  (next_lid s,
   mkAStore (objs s) (fun k => if Nat.eqb k (next_lid s) then xs else lists s k)
            (S (next_lid s))).

(** [PersonBase.__init__] for the object at [r]: two new empty lists. *)
Definition anew_person (s : astore) (r : ref) (n : string) (b : date) (k : variant) : astore :=
  let (lp, s1) := list_new s [] in
  let (lc, s2) := list_new s1 [] in
  aupd_obj s2 r (mkAPerson n b k lp lc None).

(** [for x in l: field(x).append(self)].  Python's list iterator reads
    index [i] of the live list at each step, so an element appended to
    [l] during the loop is visited as well.  [fuel] bounds the number of
    steps; [None] means it ran out before the iterator was exhausted. *)
Fixpoint append_each (fuel : nat) (field : aperson -> lid) (self : ref) (l : lid)
         (i : nat) (s : astore) : option astore :=
  match fuel with
  | O => None
  | S f =>
      match nth_error (lists s l) i with
      | None => Some s
      | Some x => append_each f field self l (S i) (list_append s (field (objs s x)) self)
      end
  end.

(** [set_parents]: [self._parents = parents], then
    [parent._children.append(self)] for each parent. *)
Definition aset_parents (fuel : nat) (self : ref) (parents : lid) (s : astore) : option astore :=
  let sp := objs s self in
  append_each fuel a_children self parents 0%nat
    (aupd_obj s self (mkAPerson (a_name sp) (a_birth_date sp) (a_kind sp)
                                parents (a_children sp) (a_spouse sp))).

(** [set_children]: [self._children = children], then
    [child._parents.append(self)] for each child. *)
Definition aset_children (fuel : nat) (self : ref) (children : lid) (s : astore) : option astore :=
  let sp := objs s self in
  append_each fuel a_parents self children 0%nat
    (aupd_obj s self (mkAPerson (a_name sp) (a_birth_date sp) (a_kind sp)
                                (a_parents sp) children (a_spouse sp))).

(** The spouse setter. *)
Definition aset_spouse (self other : ref) (s : astore) : astore :=
  let sp := objs s self in
  let s1 := aupd_obj s self (mkAPerson (a_name sp) (a_birth_date sp) (a_kind sp)
                                       (a_parents sp) (a_children sp) (Some other)) in
  let op := objs s1 other in
  aupd_obj s1 other (mkAPerson (a_name op) (a_birth_date op) (a_kind op)
                               (a_parents op) (a_children op) (Some self)).

(** The contents of the list objects, read as in the copy model. *)
Definition deref (s : astore) : heap := fun r =>
  let o := objs s r in
  mkPerson (a_name o) (a_birth_date o) (a_kind o)
           (lists s (a_parents o)) (lists s (a_children o)) (a_spouse o).

(** How many elements of list [l] have [field] equal to the list object [k]. *)
Definition shared_count (s : astore) (field : aperson -> lid) (l k : lid) : nat :=
  count_occ Nat.eq_dec (map (fun x => field (objs s x)) (lists s l)) k.

(** No list object is held by two fields of the persons [rs], and [l]
    is held by none of them. *)
Definition unshared_on (s : astore) (rs : list ref) (l : lid) : Prop :=
  (forall x y, In x rs -> In y rs -> a_children (objs s x) = a_children (objs s y) -> x = y) /\
  (forall x y, In x rs -> In y rs -> a_parents (objs s x) = a_parents (objs s y) -> x = y) /\
  (forall x y, In x rs -> In y rs -> a_parents (objs s x) <> a_children (objs s y)) /\
  (forall x, In x rs -> a_parents (objs s x) <> l /\ a_children (objs s x) <> l).

(** The seed of lines 171-191 with its list objects.  References past the
    eighth, and list object 0, are never allocated. *)
Definition aempty : astore :=
  mkAStore (fun _ => mkAPerson "" (mkDate 1 1 1) LivingPerson 0%nat 0%nat None) (fun _ => []) 1%nat.

Definition obind (m : option astore) (k : astore -> option astore) : option astore :=
  match m with Some s => k s | None => None end.

Definition seed_fuel : nat := 10%nat.

Definition seed_store0 : astore :=
  fold_left (fun s r => let p := seed_heap0 r in anew_person s r (name p) (birth_date p) (kind p))
            [cornelia; otto; anna; raj; maria; hans; child1; child2] aempty.

Definition seed_store_opt : option astore :=
  let (l1, s1) := list_new seed_store0 [anna; raj] in
  obind (aset_parents seed_fuel cornelia l1 s1) (fun s2 =>
  let (l2, s3) := list_new s2 [maria; hans] in
  obind (aset_parents seed_fuel otto l2 s3) (fun s4 =>
  let (l3, s5) := list_new s4 [child1; child2] in
  obind (aset_children seed_fuel cornelia l3 s5) (fun s6 =>
  let (l4, s7) := list_new s6 [child1; child2] in
  obind (aset_children seed_fuel otto l4 s7) (fun s8 =>
  Some (aset_spouse cornelia otto s8))))).

Definition seed_store : astore :=
  match seed_store_opt with Some s => s | None => aempty end.

(** [kids = [child1]; cornelia.set_children(kids); otto.set_children(kids)]
    on the eight new persons of the seed: the two persons share one child
    list object, [kids_list]; [shared_kids_l] is a new list [[cornelia]]. *)
Definition kids_list : lid := next_lid seed_store0.

Definition shared_kids_store : astore :=
  let (k, s1) := list_new seed_store0 [child1] in
  match obind (aset_children seed_fuel cornelia k s1) (aset_children seed_fuel otto k) with
  | Some s => s
  | None => aempty
  end.

Definition shared_kids_l : lid := fst (list_new shared_kids_store [cornelia]).
Definition shared_kids_s0 : astore := snd (list_new shared_kids_store [cornelia]).

(** [ps = [anna]; cornelia.set_parents(ps); otto.set_parents(ps)]: the two
    persons share one parent list object; [shared_ps_l] is a new list
    [[cornelia]]. *)
Definition shared_ps_store : astore :=
  let (k, s1) := list_new seed_store0 [anna] in
  match obind (aset_parents seed_fuel cornelia k s1) (aset_parents seed_fuel otto k) with
  | Some s => s
  | None => aempty
  end.

Definition shared_ps_l : lid := fst (list_new shared_ps_store [cornelia]).
Definition shared_ps_s0 : astore := snd (list_new shared_ps_store [cornelia]).

(** [k = []; cornelia.set_children(k); otto.set_children(k)], then a new
    list [[cornelia, otto]] ([shared_twice_l]). *)
Definition shared_twice_store : astore :=
  let (k, s1) := list_new seed_store0 [] in
  match obind (aset_children seed_fuel cornelia k s1) (aset_children seed_fuel otto k) with
  | Some s => s
  | None => aempty
  end.

Definition shared_twice_l : lid := fst (list_new shared_twice_store [cornelia; otto]).
Definition shared_twice_s0 : astore := snd (list_new shared_twice_store [cornelia; otto]).

(** The first link call of the seed, [cornelia.set_parents([anna, raj])],
    on the eight new persons. *)
Definition seed_rs : list ref := [cornelia; otto; anna; raj; maria; hans; child1; child2].
Definition seed_ps_l : lid := fst (list_new seed_store0 [anna; raj]).
Definition seed_ps_s0 : astore := snd (list_new seed_store0 [anna; raj]).

(** * Proofs *)

(** ** Set operations *)

Section Sets.

Lemma existsb_eqb_in (x : ref) (s : list ref) :
  existsb (Nat.eqb x) s = true <-> In x s.
Proof.
  rewrite existsb_exists. split.
  - intros [y [Hy Heq]]. apply Nat.eqb_eq in Heq. now subst.
  - intros H. exists x. split; [exact H | apply Nat.eqb_refl].
Qed.

Lemma set_add_In (x y : ref) (s : list ref) : In x (set_add y s) <-> x = y \/ In x s.
Proof.
  unfold set_add. case_eq (existsb (Nat.eqb y) s); intros Hex.
  - apply existsb_eqb_in in Hex. split; [tauto|]. intros [->|H]; assumption.
  - rewrite in_app_iff. simpl. intuition.
Qed.

Lemma set_add_NoDup (y : ref) (s : list ref) : NoDup s -> NoDup (set_add y s).
Proof.
  unfold set_add. intros Hs. case_eq (existsb (Nat.eqb y) s); intros Hex; [exact Hs|].
  apply NoDup_app; [exact Hs | constructor; [simpl; tauto | constructor] |].
  intros z Hz [<-|[]]. assert (existsb (Nat.eqb y) s = true) by (now apply existsb_eqb_in).
  congruence.
Qed.

Lemma set_update_In (x : ref) (xs s : list ref) :
  In x (set_update s xs) <-> In x s \/ In x xs.
Proof.
  unfold set_update. revert s. induction xs as [|y xs IH]; intros s; simpl.
  - tauto.
  - rewrite IH, set_add_In. intuition.
Qed.

Lemma set_update_NoDup (xs s : list ref) : NoDup s -> NoDup (set_update s xs).
Proof.
  unfold set_update. revert s. induction xs as [|y xs IH]; intros s Hs; simpl.
  - exact Hs.
  - apply IH, set_add_NoDup, Hs.
Qed.

Lemma set_discard_In (x y : ref) (s : list ref) :
  In x (set_discard y s) <-> In x s /\ x <> y.
Proof.
  unfold set_discard. rewrite filter_In, negb_true_iff, Nat.eqb_neq. tauto.
Qed.

Lemma set_discard_NoDup (y : ref) (s : list ref) : NoDup s -> NoDup (set_discard y s).
Proof. apply NoDup_filter. Qed.

End Sets.

#[export] Hint Resolve set_add_NoDup set_update_NoDup set_discard_NoDup NoDup_nil : sets.

(** ** Read-only computations

    A computation [m] runs as the function [f] without effect when
    [m h = (f h, h)] for every store [h]. *)

Definition runs_as {A} (m : ST A) (f : heap -> A) : Prop := forall h, m h = (f h, h).

Section ReadOnly.

Lemma runs_as_ret {A} (a : A) : runs_as (ret a) (fun _ => a).
Proof. intros h. reflexivity. Qed.

Lemma runs_as_read (r : ref) : runs_as (read r) (fun h => h r).
Proof. intros h. reflexivity. Qed.

Lemma runs_as_bind {A B} (m : ST A) (f : heap -> A) (k : A -> ST B) (g : A -> heap -> B) :
  runs_as m f -> (forall a, runs_as (k a) (g a)) ->
  runs_as (bind m k) (fun h => g (f h) h).
Proof. intros Hm Hk h. unfold bind. rewrite Hm. apply Hk. Qed.

Lemma runs_as_fold_st {A B} (f : B -> A -> ST B) (g : B -> A -> heap -> B) (xs : list A) :
  (forall acc x, runs_as (f acc x) (g acc x)) ->
  forall acc, runs_as (fold_st f xs acc) (fun h => fold_left (fun a x => g a x h) xs acc).
Proof.
  intros Hf. induction xs as [|x xs IH]; intros acc h; simpl.
  - reflexivity.
  - unfold bind. rewrite Hf. apply IH.
Qed.

Lemma runs_as_ext {A} (m : ST A) (f g : heap -> A) :
  runs_as m f -> (forall h, f h = g h) -> runs_as m g.
Proof. intros Hm Hfg h. rewrite Hm, Hfg. reflexivity. Qed.

End ReadOnly.

Lemma runs_as_fst {A} (m : ST A) (f : heap -> A) (h : heap) :
  runs_as m f -> fst (m h) = f h.
Proof. intros Hm. rewrite Hm. reflexivity. Qed.

Lemma runs_as_snd {A} (m : ST A) (f : heap -> A) (h : heap) :
  runs_as m f -> snd (m h) = h.
Proof. intros Hm. rewrite Hm. reflexivity. Qed.

Create HintDb readonly.
#[export] Hint Resolve runs_as_ret runs_as_read : readonly.

(** Results of the relationship methods, as functions of the store. *)

Definition siblings_of (h : heap) (p : ref) : list ref :=
  set_discard p (fold_left (fun s q => set_update s (children (h q))) (parents (h p)) []).

Definition cousins_loop (h : heap) (p : ref) : list ref :=
  fold_left (fun c q => fold_left (fun c s => c ++ children (h s)) (siblings_of h q) c)
            (parents (h p)) [].

Definition immediate_of (h : heap) (p : ref) : list ref :=
  let fam := set_update (set_update [] (parents (h p))) (siblings_of h p) in
  let fam := match spouse (h p) with Some s => set_add s fam | None => fam end in
  set_update fam (children (h p)).

Definition extended_unfiltered (h : heap) (p : ref) : list ref :=
  fold_left (fun e q => fold_left (fun e s => set_update (set_add s e) (children (h s)))
                                  (siblings_of h q) e)
            (parents (h p)) (set_update [] (immediate_of h p)).

Definition grandparents_of (h : heap) (p : ref) : list ref :=
  fold_left (fun g q => g ++ parents (h q)) (parents (h p)) [].

Lemma find_parents_runs (p : ref) : runs_as (find_parents p) (fun h => parents (h p)).
Proof. intros h. reflexivity. Qed.

Lemma find_grandparents_runs (p : ref) : runs_as (find_grandparents p) (fun h => grandparents_of h p).
Proof.
  intros h. unfold find_grandparents, grandparents_of, bind. simpl.
  apply (runs_as_fold_st _ (fun g q h => g ++ parents (h q))). intros acc x h'. reflexivity.
Qed.

Lemma find_siblings_runs (p : ref) : runs_as (find_siblings p) (fun h => siblings_of h p).
Proof.
  intros h. unfold find_siblings, siblings_of, bind. simpl.
  rewrite (runs_as_fold_st _ (fun s q h => set_update s (children (h q)))).
  - reflexivity.
  - intros acc x h'. reflexivity.
Qed.

Lemma find_cousins_runs (p : ref) : runs_as (find_cousins p) (fun h => cousins_loop h p).
Proof.
  intros h. unfold find_cousins, cousins_loop, bind. simpl.
  apply (runs_as_fold_st _ (fun c q h =>
           fold_left (fun c s => c ++ children (h s)) (siblings_of h q) c)).
  intros acc q h'. rewrite find_siblings_runs.
  apply (runs_as_fold_st _ (fun c s h => c ++ children (h s))).
  intros acc' s h''. reflexivity.
Qed.

Lemma find_immediate_family_runs (p : ref) :
  runs_as (find_immediate_family p) (fun h => immediate_of h p).
Proof.
  intros h. unfold find_immediate_family, immediate_of, bind. simpl.
  rewrite find_siblings_runs. reflexivity.
Qed.

Definition filter_living_of (h : heap) (xs : list ref) : list ref :=
  filter (fun x => is_living (h x)) xs.

Lemma filter_living_runs (xs : list ref) :
  runs_as (filter_living xs) (fun h => filter_living_of h xs).
Proof.
  induction xs as [|x xs IH]; intros h; [reflexivity|].
  simpl. unfold bind. simpl. rewrite IH. reflexivity.
Qed.

Lemma find_extended_family_runs (p : ref) :
  runs_as (find_extended_family p) (fun h => filter_living_of h (extended_unfiltered h p)).
Proof.
  intros h. unfold find_extended_family, extended_unfiltered, bind.
  rewrite find_immediate_family_runs. simpl.
  rewrite (runs_as_fold_st _ (fun e q h =>
             fold_left (fun e s => set_update (set_add s e) (children (h s)))
                       (siblings_of h q) e)).
  - apply filter_living_runs.
  - intros acc q h'. rewrite find_siblings_runs.
    apply (runs_as_fold_st _ (fun e s h => set_update (set_add s e) (children (h s)))).
    intros acc' s h''. reflexivity.
Qed.

(** ** Membership in the relationship results *)

Section Membership.

Variable h : heap.

Lemma fold_set_update_In (f : ref -> list ref) (qs s0 : list ref) (x : ref) :
  In x (fold_left (fun s q => set_update s (f q)) qs s0) <->
  In x s0 \/ exists q, In q qs /\ In x (f q).
Proof.
  revert s0. induction qs as [|q qs IH]; intros s0; simpl.
  - split; [tauto|]. intros [H|[q [[] _]]]. exact H.
  - rewrite IH, set_update_In. split.
    + intros [[H|H]|[q' [Hq' Hx]]]; [tauto| |]; right; eauto.
    + intros [H|[q' [[<-|Hq'] Hx]]]; [tauto|tauto|]. right. eauto.
Qed.

Lemma fold_set_update_NoDup (f : ref -> list ref) (qs s0 : list ref) :
  NoDup s0 -> NoDup (fold_left (fun s q => set_update s (f q)) qs s0).
Proof.
  revert s0. induction qs as [|q qs IH]; intros s0 Hs; simpl; [exact Hs|].
  apply IH. auto with sets.
Qed.

Lemma siblings_of_In (p x : ref) :
  In x (siblings_of h p) <->
  x <> p /\ exists q, In q (parents (h p)) /\ In x (children (h q)).
Proof.
  unfold siblings_of. rewrite set_discard_In, fold_set_update_In. simpl.
  split; intros [H1 H2]; split; try assumption.
  - destruct H1 as [[]|H1]. exact H1.
  - right. exact H2.
Qed.

Lemma siblings_of_NoDup (p : ref) : NoDup (siblings_of h p).
Proof.
  unfold siblings_of. apply set_discard_NoDup, fold_set_update_NoDup. constructor.
Qed.

Lemma immediate_of_In (p x : ref) :
  In x (immediate_of h p) <->
  In x (parents (h p)) \/ In x (siblings_of h p) \/ spouse (h p) = Some x \/
  In x (children (h p)).
Proof.
  unfold immediate_of. rewrite set_update_In.
  destruct (spouse (h p)) as [s|].
  - rewrite set_add_In, !set_update_In. simpl. split.
    + intros [[->|[[[]|H]|H]]|H]; intuition congruence.
    + intros [H|[H|[H|H]]]; [tauto|tauto| |tauto]. left. left. congruence.
  - rewrite !set_update_In. simpl. split.
    + intros [[[[]|H]|H]|H]; tauto.
    + intros [H|[H|[H|H]]]; [tauto|tauto|discriminate|tauto].
Qed.

Lemma ext_inner_In (ss e0 : list ref) (x : ref) :
  In x (fold_left (fun e s => set_update (set_add s e) (children (h s))) ss e0) <->
  In x e0 \/ exists s, In s ss /\ (x = s \/ In x (children (h s))).
Proof.
  revert e0. induction ss as [|s ss IH]; intros e0; simpl.
  - split; [tauto|]. intros [H|[s [[] _]]]. exact H.
  - rewrite IH, set_update_In, set_add_In. split.
    + intros [[[H|H]|H]|[s' [Hs' Hx]]].
      * right. exists s. tauto.
      * tauto.
      * right. exists s. tauto.
      * right. exists s'. tauto.
    + intros [H|[s' [[<-|Hs'] Hx]]].
      * tauto.
      * destruct Hx as [Hx|Hx]; [left; left; left; exact Hx | left; right; exact Hx].
      * right. exists s'. tauto.
Qed.

Lemma ext_outer_In (qs e0 : list ref) (x : ref) :
  In x (fold_left (fun e q => fold_left (fun e s => set_update (set_add s e) (children (h s)))
                                        (siblings_of h q) e) qs e0) <->
  In x e0 \/ exists q s, In q qs /\ In s (siblings_of h q) /\ (x = s \/ In x (children (h s))).
Proof.
  revert e0. induction qs as [|q qs IH]; intros e0; simpl.
  - split; [tauto|]. intros [H|[q [s [[] _]]]]. exact H.
  - rewrite IH, ext_inner_In. split.
    + intros [[H|[s [Hs Hx]]]|[q' [s [Hq [Hs Hx]]]]].
      * tauto.
      * right. exists q, s. tauto.
      * right. exists q', s. tauto.
    + intros [H|[q' [s [[<-|Hq] [Hs Hx]]]]].
      * tauto.
      * left. right. exists s. tauto.
      * right. exists q', s. tauto.
Qed.

Lemma extended_unfiltered_In (p x : ref) :
  In x (extended_unfiltered h p) <->
  In x (immediate_of h p) \/
  exists q s, In q (parents (h p)) /\ In s (siblings_of h q) /\ (x = s \/ In x (children (h s))).
Proof.
  unfold extended_unfiltered. rewrite ext_outer_In, set_update_In. simpl. split.
  - intros [[[]|H]|H]; tauto.
  - intros [H|H]; tauto.
Qed.

Lemma filter_living_of_In (xs : list ref) (x : ref) :
  In x (filter_living_of h xs) <-> In x xs /\ is_living (h x) = true.
Proof. unfold filter_living_of. apply filter_In. Qed.

End Membership.

(** ** Claims *)

(** C4: [find_siblings p] is the union of the children of the parents of
    [p] with [p] removed: no duplicates, never [p]; the store is left as
    it was; and when every child link has its parent back-link (as in the
    seed), every sibling shares a parent with [p]. *)
Theorem find_siblings_spec (h : heap) (p : ref) :
  snd (find_siblings p h) = h /\
  NoDup (fst (find_siblings p h)) /\
  ~ In p (fst (find_siblings p h)) /\
  (forall x, In x (fst (find_siblings p h)) <->
             x <> p /\ exists q, In q (parents (h p)) /\ In x (children (h q))) /\
  ((forall q x, In x (children (h q)) -> In q (parents (h x))) ->
   forall x, In x (fst (find_siblings p h)) ->
             exists q, In q (parents (h p)) /\ In q (parents (h x))).
Proof.
  rewrite (runs_as_snd _ _ h (find_siblings_runs p)).
  rewrite (runs_as_fst _ _ h (find_siblings_runs p)).
  split; [reflexivity|]. split; [apply siblings_of_NoDup|].
  split; [intros Hp; apply siblings_of_In in Hp; tauto|].
  split; [intros x; apply siblings_of_In|].
  intros Hback x Hx. apply siblings_of_In in Hx as [_ [q [Hq Hxq]]].
  exists q. split; [exact Hq | apply Hback, Hxq].
Qed.

(** C1: every member of [find_extended_family p] is a [LivingPerson];
    the result is, among living persons, exactly the immediate family
    together with each parent's siblings and their children.
    [find_immediate_family] has no such filter: it is the parents,
    siblings, spouse and children of [p] of either class, and in the
    seed the immediate family of Cornelia contains Otto, who is a
    [DeceasedPerson]. *)
Theorem extended_family_living_only (h : heap) (p : ref) :
  snd (find_extended_family p h) = h /\
  (forall x, In x (fst (find_extended_family p h)) -> kind (h x) = LivingPerson) /\
  (forall x, In x (fst (find_extended_family p h)) <->
     is_living (h x) = true /\
     (In x (fst (find_immediate_family p h)) \/
      exists q s, In q (parents (h p)) /\ In s (fst (find_siblings q h)) /\
                  (x = s \/ In x (children (h s))))) /\
  (forall x, In x (fst (find_immediate_family p h)) <->
     In x (parents (h p)) \/ In x (fst (find_siblings p h)) \/
     spouse (h p) = Some x \/ In x (children (h p))) /\
  (In otto (fst (find_immediate_family cornelia seed_heap)) /\
   kind (seed_heap otto) <> LivingPerson).
Proof.
  rewrite (runs_as_snd _ _ h (find_extended_family_runs p)).
  rewrite (runs_as_fst _ _ h (find_extended_family_runs p)).
  rewrite (runs_as_fst _ _ h (find_immediate_family_runs p)).
  rewrite (runs_as_fst _ _ h (find_siblings_runs p)).
  setoid_rewrite (fun q => runs_as_fst _ _ h (find_siblings_runs q)).
  split; [reflexivity|].
  split.
  { intros x Hx. apply filter_living_of_In in Hx as [_ Hl].
    unfold is_living in Hl. destruct (kind (h x)); [reflexivity|discriminate]. }
  split.
  { intros x. rewrite filter_living_of_In, extended_unfiltered_In. tauto. }
  split.
  { intros x. apply immediate_of_In. }
  split; [vm_compute; tauto | vm_compute; discriminate].
Qed.

Lemma fold_left_ext_fun {A B} (f g : B -> A -> B) (xs : list A) (b : B) :
  (forall a x, f a x = g a x) -> fold_left f xs b = fold_left g xs b.
Proof.
  intros Hfg. revert b. induction xs as [|x xs IH]; intros b; simpl; [reflexivity|].
  rewrite Hfg. apply IH.
Qed.

Lemma fold_app_concat {A} (f : A -> list ref) (xs : list A) (c0 : list ref) :
  fold_left (fun c x => c ++ f x) xs c0 = c0 ++ List.concat (map f xs).
Proof.
  revert c0. induction xs as [|x xs IH]; intros c0; simpl.
  - rewrite app_nil_r. reflexivity.
  - rewrite IH, app_assoc. reflexivity.
Qed.

Lemma find_cousins_eq_spec (h : heap) (p : ref) :
  find_cousins p h = (cousins_spec h p, h).
Proof.
  rewrite find_cousins_runs. f_equal. unfold cousins_loop, cousins_spec.
  rewrite (fold_left_ext_fun _
             (fun c q => c ++ List.concat (map (fun s => children (h s)) (siblings_of h q))))
    by (intros c q; apply fold_app_concat).
  rewrite fold_app_concat. simpl. f_equal. apply map_ext. intros q.
  rewrite (runs_as_fst _ _ h (find_siblings_runs q)). reflexivity.
Qed.

(** C5: [find_cousins p] is the concatenation, over the parents of [p]
    and the siblings of each, of the siblings' children, with no
    deduplication: in [dup_heap], where both parents of [4] have the
    sibling [3], the child [5] of [3] is listed twice. *)
Theorem find_cousins_concat (h : heap) (p : ref) :
  find_cousins p h = (cousins_spec h p, h) /\
  fst (find_cousins 4%nat dup_heap) = [4; 5; 4; 5]%nat /\
  ~ NoDup (fst (find_cousins 4%nat dup_heap)).
Proof.
  split; [apply find_cousins_eq_spec|].
  assert (E : fst (find_cousins 4%nat dup_heap) = [4; 5; 4; 5]%nat) by (vm_compute; reflexivity).
  split; [exact E|]. rewrite E. intros Hnd.
  inversion Hnd as [|a l Hnot _]. apply Hnot. simpl. tauto.
Qed.

Definition deceased_age_sum (h : heap) (xs : list ref) : Z :=
  fold_right Z.add 0%Z (map (fun r => age_at_death (h r))
                           (filter (fun r => negb (is_living (h r))) xs)).

Lemma average_fold (h : heap) (xs : list ref) (t c : Z) :
  fold_left (fun (acc : Z * Z) r =>
               match kind (h r) with
               | DeceasedPerson _ => (fst acc + age_at_death (h r), snd acc + 1)%Z
               | LivingPerson => acc
               end) xs (t, c) =
  ((t + deceased_age_sum h xs)%Z,
   (c + Z.of_nat (List.length (filter (fun r => negb (is_living (h r))) xs)))%Z).
Proof.
  unfold deceased_age_sum.
  revert t c. induction xs as [|x xs IH]; intros t c; simpl.
  - f_equal; lia.
  - destruct (kind (h x)) eqn:Hk.
    + replace (is_living (h x)) with true by (unfold is_living; now rewrite Hk).
      simpl. rewrite IH. reflexivity.
    + replace (is_living (h x)) with false by (unfold is_living; now rewrite Hk).
      simpl. rewrite IH. simpl. f_equal; lia.
Qed.

(** C6: [calculate_average_age] is the mean over exactly the
    [DeceasedPerson] members of [(death - birth).days // 365], and 0 when
    there is none; on the seed the five ages are 54, 69, 68, 62, 72 and
    the mean is 65. *)
Theorem calculate_average_age_mean (members : registry) (h : heap) :
  calculate_average_age members h = (average_age_spec h members, h) /\
  map (fun r => age_at_death (seed_heap r)) [otto; anna; raj; maria; hans] =
    [54; 69; 68; 62; 72]%Z /\
  (fst (calculate_average_age seed_members seed_heap) == 65)%Q.
Proof.
  split.
  { unfold calculate_average_age, bind.
    rewrite (runs_as_fold_st _ (fun (acc : Z * Z) r h =>
               match kind (h r) with
               | DeceasedPerson _ => (fst acc + age_at_death (h r), snd acc + 1)%Z
               | LivingPerson => acc
               end)).
    2: { intros acc r h'. reflexivity. }
    rewrite average_fold. unfold average_age_spec, deceased_age_sum.
    destruct (filter (fun r => negb (is_living (h r))) (dict_values members)) as [|d ds] eqn:Hf.
    - reflexivity.
    - simpl List.length. rewrite Nat2Z.inj_succ.
      replace (Z.ltb 0 (0 + Z.succ (Z.of_nat (List.length ds)))) with true
        by (symmetry; apply Z.ltb_lt; lia).
      rewrite !Z.add_0_l. reflexivity. }
  split; vm_compute; reflexivity.
Qed.

(** C8: [get_person] returns [None] exactly for names absent from the
    registry; [get_member_details] then returns ["Person not found."],
    and for a present name the [display_details] string of that person;
    it reads the store without changing it. *)
Theorem get_member_details_not_found (members : registry) (h : heap) (n : string) :
  (get_person members n = None <-> ~ In n (map fst members)) /\
  fst (get_member_details members n h) =
    match get_person members n with
    | None => "Person not found."%string
    | Some r => display_details (h r)
    end /\
  snd (get_member_details members n h) = h.
Proof.
  split.
  { unfold get_person. induction members as [|[k v] d IH]; simpl.
    - tauto.
    - destruct (String.eqb n k) eqn:E.
      + apply String.eqb_eq in E. subst. split; [discriminate|]. tauto.
      + apply String.eqb_neq in E. rewrite IH. split; intros H1 H2; apply H1;
        [destruct H2 as [H2|H2]; [congruence|exact H2] | right; exact H2]. }
  unfold get_member_details. destruct (get_person members n); split; reflexivity.
Qed.

Lemma set_spouse_heap (a b : ref) (h : heap) :
  snd (set_spouse a b h) =
  upd (upd h a (set_spouse_field (h a) (Some b))) b
      (set_spouse_field (upd h a (set_spouse_field (h a) (Some b)) b) (Some a)).
Proof. reflexivity. Qed.

Lemma upd_eq (h : heap) (r : ref) (p : person) : upd h r p r = p.
Proof. unfold upd. rewrite Nat.eqb_refl. reflexivity. Qed.

Lemma upd_neq (h : heap) (r x : ref) (p : person) : x <> r -> upd h r p x = h x.
Proof. intros Hne. unfold upd. apply Nat.eqb_neq in Hne. rewrite Hne. reflexivity. Qed.

(** C10: the spouse setter [p.spouse = c] writes [p]'s and [c]'s spouse
    fields and nothing else; a former spouse [b] of [p] keeps its link to
    [p], which no longer points back. *)
Theorem remarriage_leaves_dangling (h : heap) (p b c : ref)
  (Hb : spouse (h b) = Some p) (Hbp : b <> p) (Hbc : b <> c) (Hcp : c <> p) :
  spouse (snd (set_spouse p c h) p) = Some c /\
  spouse (snd (set_spouse p c h) c) = Some p /\
  spouse (snd (set_spouse p c h) b) = Some p /\
  snd (set_spouse p c h) p = set_spouse_field (h p) (Some c) /\
  snd (set_spouse p c h) c = set_spouse_field (h c) (Some p) /\
  (forall r, r <> p -> r <> c -> snd (set_spouse p c h) r = h r).
Proof.
  rewrite set_spouse_heap.
  rewrite (upd_neq h p c) by exact Hcp.
  repeat split.
  - rewrite upd_neq by congruence. rewrite upd_eq. reflexivity.
  - rewrite upd_eq. reflexivity.
  - rewrite !upd_neq by assumption. exact Hb.
  - rewrite upd_neq by congruence. apply upd_eq.
  - apply upd_eq.
  - intros r Hrp Hrc. rewrite !upd_neq by assumption. reflexivity.
Qed.

Lemma remarriage_leaves_dangling_witness :
  spouse (seed_heap otto) = Some cornelia /\
  spouse (snd (set_spouse cornelia anna seed_heap) otto) = Some cornelia /\
  spouse (snd (set_spouse cornelia anna seed_heap) cornelia) = Some anna.
Proof.
  assert (Hb : spouse (seed_heap otto) = Some cornelia) by (vm_compute; reflexivity).
  destruct (remarriage_leaves_dangling seed_heap cornelia otto anna Hb)
    as [H1 [_ [H3 _]]]; try (unfold otto, cornelia, anna; lia).
  split; [exact Hb|]. split; [exact H3 | exact H1].
Defined.

Section Purity.

Variable h : heap.

Lemma siblings_linked (p x : ref) : In x (siblings_of h p) -> linked h x.
Proof.
  intros Hx. apply siblings_of_In in Hx as [_ [q [_ Hq]]]. exists q. tauto.
Qed.

Lemma immediate_linked (p x : ref) : In x (immediate_of h p) -> linked h x.
Proof.
  intros Hx. apply immediate_of_In in Hx as [H|[H|[H|H]]].
  - exists p. tauto.
  - eapply siblings_linked; eassumption.
  - exists p. tauto.
  - exists p. tauto.
Qed.

Lemma extended_linked (p x : ref) :
  In x (filter_living_of h (extended_unfiltered h p)) -> linked h x.
Proof.
  intros Hx. apply filter_living_of_In in Hx as [Hx _].
  apply extended_unfiltered_In in Hx as [Hx|[q [s [_ [Hs [<-|Hx]]]]]].
  - eapply immediate_linked; eassumption.
  - eapply siblings_linked; eassumption.
  - exists s. tauto.
Qed.

Lemma grandparents_linked (p x : ref) : In x (grandparents_of h p) -> linked h x.
Proof.
  unfold grandparents_of. rewrite fold_app_concat. simpl.
  rewrite in_concat. intros [l [Hl Hx]]. apply in_map_iff in Hl as [q [<- _]].
  exists q. tauto.
Qed.

Lemma cousins_linked (p x : ref) : In x (cousins_spec h p) -> linked h x.
Proof.
  unfold cousins_spec. rewrite in_concat. intros [l [Hl Hx]].
  apply in_map_iff in Hl as [q [<- _]]. apply in_concat in Hx as [l [Hl Hx]].
  apply in_map_iff in Hl as [s [<- _]]. exists s. tauto.
Qed.

End Purity.

(** C9: each relationship method leaves the store (every person's
    fields) as it was, and returns only references already held in link
    fields of the store.  The registry is not an argument of these
    methods, so it is untouched as well. *)
Theorem relationship_methods_pure (h : heap) (p : ref) :
  (snd (find_parents p h) = h /\ forall x, In x (fst (find_parents p h)) -> linked h x) /\
  (snd (find_grandparents p h) = h /\
   forall x, In x (fst (find_grandparents p h)) -> linked h x) /\
  (snd (find_siblings p h) = h /\ forall x, In x (fst (find_siblings p h)) -> linked h x) /\
  (snd (find_cousins p h) = h /\ forall x, In x (fst (find_cousins p h)) -> linked h x) /\
  (snd (find_immediate_family p h) = h /\
   forall x, In x (fst (find_immediate_family p h)) -> linked h x) /\
  (snd (find_extended_family p h) = h /\
   forall x, In x (fst (find_extended_family p h)) -> linked h x).
Proof.
  rewrite (runs_as_snd _ _ h (find_parents_runs p)),
          (runs_as_fst _ _ h (find_parents_runs p)),
          (runs_as_snd _ _ h (find_grandparents_runs p)),
          (runs_as_fst _ _ h (find_grandparents_runs p)),
          (runs_as_snd _ _ h (find_siblings_runs p)),
          (runs_as_fst _ _ h (find_siblings_runs p)),
          (runs_as_snd _ _ h (find_immediate_family_runs p)),
          (runs_as_fst _ _ h (find_immediate_family_runs p)),
          (runs_as_snd _ _ h (find_extended_family_runs p)),
          (runs_as_fst _ _ h (find_extended_family_runs p)).
  rewrite find_cousins_eq_spec. simpl.
  repeat split.
  - intros x Hx. exists p. tauto.
  - apply grandparents_linked.
  - apply siblings_linked.
  - apply cousins_linked.
  - apply immediate_linked.
  - apply extended_linked.
Qed.

(** ** Link operations *)

Lemma for_each_cons_snd {A} (x : A) (xs : list A) (body : A -> ST unit) (g : heap) :
  snd (for_each (x :: xs) body g) = snd (for_each xs body (snd (body x g))).
Proof. simpl. unfold bind. destruct (body x g). reflexivity. Qed.

Lemma spouse_set_spouse (a b x : ref) (h : heap) :
  spouse (snd (set_spouse a b h) x) =
  if Nat.eqb x b then Some a else if Nat.eqb x a then Some b else spouse (h x).
Proof.
  rewrite set_spouse_heap. unfold upd.
  destruct (Nat.eqb x b); [reflexivity|]. destruct (Nat.eqb x a); reflexivity.
Qed.

Section SetParents.

Variable self : ref.

Lemma set_parents_loop (ps : list ref) (g : heap) :
  let g' := snd (for_each ps (fun parent =>
              pp <- read parent ;;
              write parent (set_children_field pp (children pp ++ [self]))) g) in
  (forall y, parents (g' y) = parents (g y) /\ spouse (g' y) = spouse (g y)) /\
  (forall y z, In z (children (g y)) -> In z (children (g' y))) /\
  (forall q, In q ps -> In self (children (g' q))).
Proof.
  revert g. induction ps as [|q ps IH]; intros g.
  - simpl. split; [tauto|]. split; [tauto|]. intros _ [].
  - cbv zeta. rewrite for_each_cons_snd.
    assert (Hstep : snd ((fun parent =>
              pp <- read parent ;;
              write parent (set_children_field pp (children pp ++ [self]))) q g) =
            upd g q (set_children_field (g q) (children (g q) ++ [self])))
      by reflexivity.
    rewrite Hstep.
    destruct (IH (upd g q (set_children_field (g q) (children (g q) ++ [self]))))
      as [Hp [Hc Hs]].
    split; [|split].
    + intros y. rewrite (proj1 (Hp y)), (proj2 (Hp y)). unfold upd.
      destruct (Nat.eqb y q) eqn:E; [apply Nat.eqb_eq in E; subst y|]; split; reflexivity.
    + intros y z Hz. apply Hc. unfold upd.
      destruct (Nat.eqb y q) eqn:E; [apply Nat.eqb_eq in E; subst y|]; simpl;
        [apply in_or_app; left|]; exact Hz.
    + intros q' [<-|Hq'].
      * apply Hc. rewrite upd_eq. simpl. apply in_or_app. right. left. reflexivity.
      * apply Hs, Hq'.
Qed.

Lemma set_parents_heap (ps : list ref) (h : heap) :
  snd (set_parents self ps h) =
  snd (for_each ps (fun parent =>
         pp <- read parent ;;
         write parent (set_children_field pp (children pp ++ [self])))
       (upd h self (set_parents_field (h self) ps))).
Proof. reflexivity. Qed.

End SetParents.

Section SetChildren.

Variable self : ref.

Lemma set_children_loop (cs : list ref) (g : heap) :
  let g' := snd (for_each cs (fun child =>
              cp <- read child ;;
              write child (set_parents_field cp (parents cp ++ [self]))) g) in
  (forall y, children (g' y) = children (g y) /\ spouse (g' y) = spouse (g y)) /\
  (forall y q, In q (parents (g' y)) -> In q (parents (g y)) \/ (q = self /\ In y cs)).
Proof.
  revert g. induction cs as [|c cs IH]; intros g.
  - simpl. split; [tauto|]. tauto.
  - cbv zeta. rewrite for_each_cons_snd.
    assert (Hstep : snd ((fun child =>
              cp <- read child ;;
              write child (set_parents_field cp (parents cp ++ [self]))) c g) =
            upd g c (set_parents_field (g c) (parents (g c) ++ [self])))
      by reflexivity.
    rewrite Hstep.
    destruct (IH (upd g c (set_parents_field (g c) (parents (g c) ++ [self]))))
      as [Hc Hp].
    split.
    + intros y. rewrite (proj1 (Hc y)), (proj2 (Hc y)). unfold upd.
      destruct (Nat.eqb y c) eqn:E; [apply Nat.eqb_eq in E; subst y|]; split; reflexivity.
    + intros y q Hq. apply Hp in Hq as [Hq|[-> Hy]]; [|right; split; [reflexivity|right; exact Hy]].
      unfold upd in Hq. destruct (Nat.eqb y c) eqn:E; simpl in Hq; [|tauto].
      apply Nat.eqb_eq in E. subst y.
      apply in_app_or in Hq as [Hq|[<-|[]]]; [tauto|].
      right. split; [reflexivity|left; reflexivity].
Qed.

Lemma set_children_heap (cs : list ref) (h : heap) :
  snd (set_children self cs h) =
  snd (for_each cs (fun child =>
         cp <- read child ;;
         write child (set_parents_field cp (parents cp ++ [self])))
       (upd h self (set_children_field (h self) cs))).
Proof. reflexivity. Qed.

End SetChildren.

Lemma backlinked_onb_sound (h : heap) (rs : list ref) :
  backlinked_onb h rs = true -> backlinked_on h rs.
Proof.
  unfold backlinked_onb. intros Hb x q Hx Hq.
  rewrite forallb_forall in Hb. specialize (Hb x Hx).
  rewrite forallb_forall in Hb. specialize (Hb q Hq).
  apply existsb_eqb_in in Hb. exact Hb.
Qed.

Lemma seed_store_agrees (r : ref) : deref seed_store r = seed_heap r.
Proof.
  do 8 (destruct r as [|r]; [vm_compute; reflexivity|]).
  vm_compute. destruct r; reflexivity.
Qed.

(** C3: the seed's link calls (lines 183-191) run to completion on
    shared list objects, and the store they build reads as [seed_heap]
    (each call gets a new list display, so no list object is shared);
    in it every member's parent lists its child back-link. *)
Theorem seed_parent_child_backlinks :
  (exists s, seed_store_opt = Some s /\ forall r, deref s r = seed_heap r) /\
  backlinked_on (deref seed_store) (dict_values seed_members) /\
  backlinked_on seed_heap (dict_values seed_members).
Proof.
  split; [exists seed_store; split; [vm_compute; reflexivity | apply seed_store_agrees]|].
  split; apply backlinked_onb_sound; vm_compute; reflexivity.
Qed.

(** C2 (as stated, refuted): after Cornelia is married to Otto and then to
    Anna through the spouse setter, Otto's spouse is Cornelia while
    Cornelia's is Anna, so the symmetry does not hold after every
    sequence of link operations. *)
Lemma spouse_symmetry_counterexample :
  spouse (relink_heap otto) = Some cornelia /\
  spouse (relink_heap cornelia) = Some anna /\
  ~ spouse_symmetric relink_heap.
Proof.
  assert (E1 : spouse (relink_heap otto) = Some cornelia) by (vm_compute; reflexivity).
  assert (E2 : spouse (relink_heap cornelia) = Some anna) by (vm_compute; reflexivity).
  split; [exact E1|]. split; [exact E2|].
  intros Hsym. specialize (Hsym otto cornelia E1). rewrite E2 in Hsym. discriminate.
Qed.

Lemma set_parents_spouse (h : heap) (self x : ref) (ps : list ref) :
  spouse (snd (set_parents self ps h) x) = spouse (h x).
Proof.
  rewrite set_parents_heap.
  destruct (set_parents_loop self ps (upd h self (set_parents_field (h self) ps)))
    as [Hp _].
  rewrite (proj2 (Hp x)). unfold upd.
  destruct (Nat.eqb x self) eqn:E; [apply Nat.eqb_eq in E; subst x|]; reflexivity.
Qed.

Lemma set_children_spouse (h : heap) (self x : ref) (cs : list ref) :
  spouse (snd (set_children self cs h) x) = spouse (h x).
Proof.
  rewrite set_children_heap.
  destruct (set_children_loop self cs (upd h self (set_children_field (h self) cs)))
    as [Hc _].
  rewrite (proj2 (Hc x)). unfold upd.
  destruct (Nat.eqb x self) eqn:E; [apply Nat.eqb_eq in E; subst x|]; reflexivity.
Qed.

(** C2 (amended): one call of the spouse setter [a.spouse = b] links both
    sides; it keeps the store spouse-symmetric when each of [a] and [b] is
    unmarried or already married to the other; [set_parents] and
    [set_children] leave every spouse field alone; and the seed registry
    is spouse-symmetric. *)
Theorem spouse_setter_symmetry (h : heap) (a b : ref) :
  spouse (snd (set_spouse a b h) a) = Some b /\
  spouse (snd (set_spouse a b h) b) = Some a /\
  (spouse_symmetric h ->
   (spouse (h a) = None \/ spouse (h a) = Some b) ->
   (spouse (h b) = None \/ spouse (h b) = Some a) ->
   spouse_symmetric (snd (set_spouse a b h))) /\
  (forall self ps x, spouse (snd (set_parents self ps h) x) = spouse (h x)) /\
  (forall self cs x, spouse (snd (set_children self cs h) x) = spouse (h x)) /\
  (forall x s, In x (dict_values seed_members) -> spouse (seed_heap x) = Some s ->
               spouse (seed_heap s) = Some x).
Proof.
  split.
  { rewrite spouse_set_spouse. destruct (Nat.eqb a b) eqn:E.
    - apply Nat.eqb_eq in E. subst. reflexivity.
    - rewrite Nat.eqb_refl. reflexivity. }
  split; [rewrite spouse_set_spouse, Nat.eqb_refl; reflexivity|].
  split.
  { intros Hsym Ha Hb x s Hx. rewrite spouse_set_spouse in Hx |- *.
    destruct (Nat.eqb x b) eqn:Exb.
    - injection Hx as <-. apply Nat.eqb_eq in Exb. subst x.
      destruct (Nat.eqb a b) eqn:Eab; [apply Nat.eqb_eq in Eab; subst; reflexivity|].
      rewrite Nat.eqb_refl. reflexivity.
    - destruct (Nat.eqb x a) eqn:Exa.
      + injection Hx as <-. apply Nat.eqb_eq in Exa. subst x. rewrite Nat.eqb_refl. reflexivity.
      + apply Nat.eqb_neq in Exb, Exa.
        destruct (Nat.eqb s b) eqn:Esb.
        { apply Nat.eqb_eq in Esb. subst s. apply Hsym in Hx.
          destruct Hb as [Hb|Hb]; rewrite Hb in Hx; [discriminate|].
          injection Hx as ->. contradiction. }
        destruct (Nat.eqb s a) eqn:Esa.
        { apply Nat.eqb_eq in Esa. subst s. apply Hsym in Hx.
          destruct Ha as [Ha|Ha]; rewrite Ha in Hx; [discriminate|].
          injection Hx as ->. contradiction. }
        apply Hsym, Hx. }
  split; [intros; apply set_parents_spouse|].
  split; [intros; apply set_children_spouse|].
  intros x s Hx Hs. vm_compute in Hx.
  repeat (destruct Hx as [<-|Hx];
          [vm_compute in Hs; first [discriminate | injection Hs as <-; vm_compute; reflexivity]|]).
  destruct Hx.
Qed.

(** ** Birthday calendar *)

Section Calendar.

Lemma key_eqb_eq (a b : md_key) : key_eqb a b = true <-> a = b.
Proof.
  destruct a as [m1 d1], b as [m2 d2]. unfold key_eqb. simpl.
  rewrite andb_true_iff, !Z.eqb_eq. split.
  - intros [-> ->]. reflexivity.
  - intros H. injection H as -> ->. tauto.
Qed.

Lemma key_eqb_neq (a b : md_key) : key_eqb a b = false <-> a <> b.
Proof.
  split.
  - intros H E. apply key_eqb_eq in E. congruence.
  - intros H. destruct (key_eqb a b) eqn:E; [apply key_eqb_eq in E; contradiction|reflexivity].
Qed.

Lemma key_ltb_total (a b : md_key) : key_ltb a b = false -> a <> b -> key_ltb b a = true.
Proof.
  destruct a as [m1 d1], b as [m2 d2]. unfold key_ltb. simpl.
  rewrite orb_false_iff, andb_false_iff, Z.ltb_ge, Z.eqb_neq, Z.ltb_ge.
  intros [H1 H2] Hne. rewrite orb_true_iff, andb_true_iff, Z.ltb_lt, Z.eqb_eq, Z.ltb_lt.
  destruct H2 as [H2|H2].
  - left. lia.
  - destruct (Z.eq_dec m1 m2) as [->|Hm]; [right; split; [reflexivity|]|left; lia].
    destruct (Z.eq_dec d1 d2) as [->|Hd]; [contradiction|lia].
Qed.

Lemma cal_append_keys (c : calendar) (k z : md_key) (n : string) :
  In z (map fst (cal_append c k n)) -> In z (map fst c) \/ z = k.
Proof.
  induction c as [|[k0 ns] c IH]; simpl.
  - intros [<-|[]]. right. reflexivity.
  - destruct (key_eqb k k0); simpl.
    + tauto.
    + intros [H|H]; [tauto|]. apply IH in H. tauto.
Qed.

Lemma cal_append_NoDup (c : calendar) (k : md_key) (n : string) :
  NoDup (map fst c) -> NoDup (map fst (cal_append c k n)).
Proof.
  induction c as [|[k0 ns] c IH]; simpl; intros Hnd.
  - constructor; [intros []|constructor].
  - inversion Hnd as [|a l Hnot Hnd']. subst.
    destruct (key_eqb k k0) eqn:E; simpl.
    + exact Hnd.
    + constructor; [|apply IH, Hnd'].
      intros Hin. apply cal_append_keys in Hin as [Hin|Hin]; [contradiction|].
      subst. apply key_eqb_neq in E. apply E. reflexivity.
Qed.

Lemma cal_append_lookup (c : calendar) (k k' : md_key) (n : string) :
  cal_lookup k (cal_append c k' n) =
  if key_eqb k' k
  then Some (match cal_lookup k c with Some ns => ns ++ [n] | None => [n] end)
  else cal_lookup k c.
Proof.
  induction c as [|[k0 ns] c IH]; simpl.
  - destruct (key_eqb k' k); reflexivity.
  - destruct (key_eqb k' k0) eqn:E0; simpl.
    + apply key_eqb_eq in E0. subst k0. destruct (key_eqb k' k); reflexivity.
    + rewrite IH. destruct (key_eqb k0 k) eqn:E1; [|reflexivity].
      apply key_eqb_eq in E1. subst k0. rewrite E0. reflexivity.
Qed.

Definition merge_names (o : option (list string)) (l : list string) : option (list string) :=
  match o, l with
  | None, [] => None
  | None, _ => Some l
  | Some ns, _ => Some (ns ++ l)
  end.

Lemma calendar_fold_lookup (h : heap) (k : md_key) (xs : list ref) (c0 : calendar) :
  cal_lookup k (fold_left (fun cal r => cal_append cal (birth_key (h r)) (name (h r))) xs c0) =
  merge_names (cal_lookup k c0) (names_with h k xs).
Proof.
  unfold names_with. revert c0. induction xs as [|x xs IH]; intros c0; simpl.
  - destruct (cal_lookup k c0); simpl; [rewrite app_nil_r|]; reflexivity.
  - rewrite IH, cal_append_lookup.
    destruct (key_eqb (birth_key (h x)) k); simpl.
    + destruct (cal_lookup k c0); simpl; [rewrite <- app_assoc|]; reflexivity.
    + reflexivity.
Qed.

Lemma calendar_fold_NoDup (h : heap) (xs : list ref) (c0 : calendar) :
  NoDup (map fst c0) ->
  NoDup (map fst (fold_left (fun cal r => cal_append cal (birth_key (h r)) (name (h r))) xs c0)).
Proof.
  revert c0. induction xs as [|x xs IH]; intros c0 Hnd; simpl; [exact Hnd|].
  apply IH, cal_append_NoDup, Hnd.
Qed.

Lemma cal_insert_perm (e : md_key * list string) (c : calendar) :
  Permutation (cal_insert e c) (e :: c).
Proof.
  induction c as [|e' c IH]; simpl; [reflexivity|].
  destruct (key_ltb (fst e') (fst e)).
  - rewrite IH. apply perm_swap.
  - reflexivity.
Qed.

Lemma cal_sort_perm (c : calendar) : Permutation (cal_sort c) c.
Proof.
  induction c as [|e c IH]; simpl; [reflexivity|].
  rewrite cal_insert_perm, IH. reflexivity.
Qed.

Lemma cal_insert_sorted (e : md_key * list string) (c : calendar) :
  Sorted key_lt c -> ~ In (fst e) (map fst c) -> Sorted key_lt (cal_insert e c).
Proof.
  induction c as [|e' c IH]; simpl; intros Hs Hnin.
  - repeat constructor.
  - inversion Hs as [|a l Hs' Hhd]. subst.
    destruct (key_ltb (fst e') (fst e)) eqn:E.
    + constructor; [apply IH; [exact Hs'|tauto]|].
      destruct c as [|e'' c]; simpl.
      * constructor. exact E.
      * destruct (key_ltb (fst e'') (fst e)); constructor; [|exact E].
        inversion Hhd. assumption.
    + constructor; [exact Hs|]. constructor. unfold key_lt.
      apply key_ltb_total; [exact E|]. intros Heq. apply Hnin. left. exact Heq.
Qed.

Lemma cal_sort_sorted (c : calendar) : NoDup (map fst c) -> Sorted key_lt (cal_sort c).
Proof.
  induction c as [|e c IH]; simpl; intros Hnd; [constructor|].
  inversion Hnd as [|a l Hnot Hnd']. subst.
  apply cal_insert_sorted; [apply IH, Hnd'|].
  intros Hin. apply Hnot.
  apply (Permutation_in _ (Permutation_map fst (cal_sort_perm c))), Hin.
Qed.

Lemma cal_lookup_Some (c : calendar) (k : md_key) (v : list string) :
  NoDup (map fst c) -> cal_lookup k c = Some v <-> In (k, v) c.
Proof.
  induction c as [|[k0 v0] c IH]; simpl; intros Hnd; [split; [discriminate|tauto]|].
  inversion Hnd as [|a l Hnot Hnd']. subst.
  destruct (key_eqb k0 k) eqn:E.
  - apply key_eqb_eq in E. subst k0. split.
    + intros H. injection H as ->. left. reflexivity.
    + intros [H|H]; [injection H as ->; reflexivity|].
      exfalso. apply Hnot. apply (in_map fst) in H. exact H.
  - rewrite IH by exact Hnd'. split; [tauto|].
    intros [H|H]; [|exact H]. injection H as -> _. rewrite key_eqb_neq in E. contradiction.
Qed.

Lemma cal_lookup_None (c : calendar) (k : md_key) :
  cal_lookup k c = None <-> ~ In k (map fst c).
Proof.
  induction c as [|[k0 v0] c IH]; simpl; [tauto|].
  destruct (key_eqb k0 k) eqn:E.
  - apply key_eqb_eq in E. subst k0. split; [discriminate|]. tauto.
  - rewrite IH. rewrite key_eqb_neq in E. intuition.
Qed.

Lemma cal_lookup_perm (c1 c2 : calendar) (k : md_key) :
  NoDup (map fst c1) -> Permutation c1 c2 -> cal_lookup k c1 = cal_lookup k c2.
Proof.
  intros Hnd Hp.
  assert (Hnd2 : NoDup (map fst c2)) by (eapply Permutation_NoDup; [apply Permutation_map, Hp|exact Hnd]).
  destruct (cal_lookup k c1) as [v|] eqn:E1.
  - apply (cal_lookup_Some c1 k v Hnd) in E1. symmetry.
    apply (cal_lookup_Some c2 k v Hnd2). eapply Permutation_in; eassumption.
  - apply cal_lookup_None in E1. symmetry. apply cal_lookup_None. intros Hin. apply E1.
    eapply Permutation_in; [|exact Hin]. apply Permutation_map. symmetry. exact Hp.
Qed.

End Calendar.

Lemma get_birthdays_calendar_eq (members : registry) (h : heap) :
  get_birthdays_calendar members h =
  (cal_sort (fold_left (fun cal r => cal_append cal (birth_key (h r)) (name (h r)))
                       (dict_values members) []), h).
Proof.
  unfold get_birthdays_calendar, bind.
  rewrite (runs_as_fold_st _ (fun cal r h => cal_append cal (birth_key (h r)) (name (h r)))).
  - reflexivity.
  - intros acc r h'. reflexivity.
Qed.

(** C7: [get_birthdays_calendar] has its keys [(month, day)] in strictly
    ascending tuple order; the entry of a key lists the names of the
    members born on that day in registry iteration order, and there is no
    entry for a day on which no member was born; on the seed the keys run
    from [(2, 28)] to [(11, 12)]. *)
Theorem birthday_calendar_sorted (members : registry) (h : heap) :
  snd (get_birthdays_calendar members h) = h /\
  Sorted key_lt (fst (get_birthdays_calendar members h)) /\
  (forall k, cal_lookup k (fst (get_birthdays_calendar members h)) =
             match names_with h k (dict_values members) with
             | [] => None
             | ns => Some ns
             end) /\
  map fst (fst (get_birthdays_calendar seed_members seed_heap)) =
    [(2, 28); (3, 22); (4, 10); (5, 20); (6, 5); (8, 15); (11, 12)]%Z.
Proof.
  rewrite !get_birthdays_calendar_eq. simpl.
  assert (Hnd : NoDup (map fst (fold_left (fun cal r => cal_append cal (birth_key (h r)) (name (h r)))
                                          (dict_values members) [])))
    by (apply calendar_fold_NoDup; constructor).
  split; [reflexivity|].
  split; [apply cal_sort_sorted, Hnd|].
  split; [|vm_compute; reflexivity].
  intros k. rewrite <- (cal_lookup_perm _ _ k Hnd (Permutation_sym (cal_sort_perm _))).
  rewrite calendar_fold_lookup. simpl. destruct (names_with h k (dict_values members)); reflexivity.
Qed.

(** * Further properties of the source *)

(** ** Exact effect of the link operations *)

(** The fields a link operation never writes. *)
Definition identity (p : person) : string * date * variant := (name p, birth_date p, kind p).

Section LinkEffects.

Variable self : ref.

Lemma set_parents_loop_exact (ps : list ref) (g : heap) (y : ref) :
  let g' := snd (for_each ps (fun parent =>
              pp <- read parent ;;
              write parent (set_children_field pp (children pp ++ [self]))) g) in
  children (g' y) = children (g y) ++ repeat self (count_occ Nat.eq_dec ps y) /\
  parents (g' y) = parents (g y) /\ spouse (g' y) = spouse (g y) /\
  identity (g' y) = identity (g y).
Proof.
  revert g. induction ps as [|q ps IH]; intros g.
  - simpl. rewrite app_nil_r. tauto.
  - cbv zeta. rewrite for_each_cons_snd.
    assert (Hstep : snd ((fun parent =>
              pp <- read parent ;;
              write parent (set_children_field pp (children pp ++ [self]))) q g) =
            upd g q (set_children_field (g q) (children (g q) ++ [self])))
      by reflexivity.
    rewrite Hstep.
    destruct (IH (upd g q (set_children_field (g q) (children (g q) ++ [self]))))
      as [Hc [Hp [Hs Hi]]].
    rewrite Hc, Hp, Hs, Hi. simpl count_occ. unfold upd.
    destruct (Nat.eqb y q) eqn:E.
    + apply Nat.eqb_eq in E. subst y. destruct (Nat.eq_dec q q) as [_|n]; [|contradiction].
      simpl. rewrite <- app_assoc. tauto.
    + apply Nat.eqb_neq in E. destruct (Nat.eq_dec q y) as [e|_]; [congruence|]. tauto.
Qed.

Lemma set_children_loop_exact (cs : list ref) (g : heap) (y : ref) :
  let g' := snd (for_each cs (fun child =>
              cp <- read child ;;
              write child (set_parents_field cp (parents cp ++ [self]))) g) in
  parents (g' y) = parents (g y) ++ repeat self (count_occ Nat.eq_dec cs y) /\
  children (g' y) = children (g y) /\ spouse (g' y) = spouse (g y) /\
  identity (g' y) = identity (g y).
Proof.
  revert g. induction cs as [|c cs IH]; intros g.
  - simpl. rewrite app_nil_r. tauto.
  - cbv zeta. rewrite for_each_cons_snd.
    assert (Hstep : snd ((fun child =>
              cp <- read child ;;
              write child (set_parents_field cp (parents cp ++ [self]))) c g) =
            upd g c (set_parents_field (g c) (parents (g c) ++ [self])))
      by reflexivity.
    rewrite Hstep.
    destruct (IH (upd g c (set_parents_field (g c) (parents (g c) ++ [self]))))
      as [Hp [Hc [Hs Hi]]].
    rewrite Hc, Hp, Hs, Hi. simpl count_occ. unfold upd.
    destruct (Nat.eqb y c) eqn:E.
    + apply Nat.eqb_eq in E. subst y. destruct (Nat.eq_dec c c) as [_|n]; [|contradiction].
      simpl. rewrite <- app_assoc. tauto.
    + apply Nat.eqb_neq in E. destruct (Nat.eq_dec c y) as [e|_]; [congruence|]. tauto.
Qed.

Lemma set_parents_exact (h : heap) (ps : list ref) (y : ref) :
  parents (snd (set_parents self ps h) y) = (if Nat.eqb y self then ps else parents (h y)) /\
  children (snd (set_parents self ps h) y) =
    children (h y) ++ repeat self (count_occ Nat.eq_dec ps y) /\
  spouse (snd (set_parents self ps h) y) = spouse (h y) /\
  identity (snd (set_parents self ps h) y) = identity (h y).
Proof.
  rewrite set_parents_heap.
  destruct (set_parents_loop_exact ps (upd h self (set_parents_field (h self) ps)) y)
    as [Hc [Hp [Hs Hi]]].
  rewrite Hc, Hp, Hs, Hi. unfold upd.
  destruct (Nat.eqb y self) eqn:E; [apply Nat.eqb_eq in E; subst y|]; tauto.
Qed.

Lemma set_children_exact (h : heap) (cs : list ref) (y : ref) :
  children (snd (set_children self cs h) y) = (if Nat.eqb y self then cs else children (h y)) /\
  parents (snd (set_children self cs h) y) =
    parents (h y) ++ repeat self (count_occ Nat.eq_dec cs y) /\
  spouse (snd (set_children self cs h) y) = spouse (h y) /\
  identity (snd (set_children self cs h) y) = identity (h y).
Proof.
  rewrite set_children_heap.
  destruct (set_children_loop_exact cs (upd h self (set_children_field (h self) cs)) y)
    as [Hp [Hc [Hs Hi]]].
  rewrite Hc, Hp, Hs, Hi. unfold upd.
  destruct (Nat.eqb y self) eqn:E; [apply Nat.eqb_eq in E; subst y|]; tauto.
Qed.

End LinkEffects.

(** Neither link operation nor the spouse setter ever changes a
    person's name, birth date or class. *)
Theorem link_ops_keep_identity (h : heap) (self other : ref) (xs : list ref) (y : ref) :
  identity (snd (set_parents self xs h) y) = identity (h y) /\
  identity (snd (set_children self xs h) y) = identity (h y) /\
  identity (snd (set_spouse self other h) y) = identity (h y).
Proof.
  split; [apply (set_parents_exact self h xs y)|].
  split; [apply (set_children_exact self h xs y)|].
  rewrite set_spouse_heap. unfold upd.
  destruct (Nat.eqb y other) eqn:E1; [apply Nat.eqb_eq in E1; subst y|];
  destruct (Nat.eqb other self) eqn:E2; try (apply Nat.eqb_eq in E2; subst other);
  try destruct (Nat.eqb y self) eqn:E3; try (apply Nat.eqb_eq in E3; subst y); reflexivity.
Qed.

(** ** Children statistics *)

Lemma sdict_set_fresh {A} (d : list (string * A)) (k : string) (v : A) :
  ~ In k (map fst d) -> sdict_set d k v = d ++ [(k, v)].
Proof.
  induction d as [|[k' v'] d IH]; simpl; intros Hk; [reflexivity|].
  destruct (String.eqb k k') eqn:E.
  - apply String.eqb_eq in E. subst. exfalso. apply Hk. left. reflexivity.
  - rewrite IH by tauto. reflexivity.
Qed.

Lemma children_stats_fold (h : heap) (xs : list ref) (t : nat) (d : list (string * nat)) :
  NoDup (map (fun r => name (h r)) xs) ->
  (forall r, In r xs -> ~ In (name (h r)) (map fst d)) ->
  fold_left (fun (acc : nat * list (string * nat)) r =>
               ((fst acc + List.length (children (h r)))%nat,
                sdict_set (snd acc) (name (h r)) (List.length (children (h r))))) xs (t, d) =
  ((t + fold_right Nat.add 0 (map (fun r => List.length (children (h r))) xs))%nat,
   d ++ map (fun r => (name (h r), List.length (children (h r)))) xs).
Proof.
  revert t d. induction xs as [|x xs IH]; intros t d Hnd Hfresh; simpl.
  - rewrite app_nil_r, Nat.add_0_r. reflexivity.
  - inversion Hnd as [|a l Hnot Hnd']. subst.
    rewrite sdict_set_fresh by (apply Hfresh; left; reflexivity).
    rewrite IH.
    + rewrite <- app_assoc. simpl. f_equal. lia.
    + exact Hnd'.
    + intros r Hr. rewrite map_app, in_app_iff. simpl. intros [H|[H|[]]].
      * apply (Hfresh r); [right; exact Hr|exact H].
      * apply Hnot. rewrite H. apply (in_map (fun r => name (h r))). exact Hr.
Qed.

(** [calculate_children_statistics]: when the members' names are
    distinct (as when each is registered under its own name), the
    per-person data lists every member's name with its number of
    children in registry order, and the average is the total number of
    children over the number of members, living and deceased alike; on an
    empty registry the result is an empty mapping and 0. *)
Theorem children_statistics_spec (members : registry) (h : heap) :
  NoDup (map (fun r => name (h r)) (dict_values members)) ->
  fst (calculate_children_statistics members h) =
    (map (fun r => (name (h r), List.length (children (h r)))) (dict_values members),
     match members with
     | [] => 0%Q
     | _ => (inject_Z (Z.of_nat (fold_right Nat.add 0%nat
                        (map (fun r => List.length (children (h r))) (dict_values members)))) /
             inject_Z (Z.of_nat (List.length members)))%Q
     end) /\
  snd (calculate_children_statistics members h) = h /\
  calculate_children_statistics [] h = (([], 0%Q), h).
Proof.
  intros Hnd. unfold calculate_children_statistics, bind.
  rewrite (runs_as_fold_st _ (fun (acc : nat * list (string * nat)) r h =>
             ((fst acc + List.length (children (h r)))%nat,
              sdict_set (snd acc) (name (h r)) (List.length (children (h r)))))).
  2: { intros acc r h'. reflexivity. }
  rewrite children_stats_fold; [| exact Hnd | intros r _ []].
  simpl. split; [|split; reflexivity].
  destruct members; reflexivity.
Qed.

Lemma children_statistics_spec_witness :
  NoDup (map (fun r => name (seed_heap r)) (dict_values seed_members)) /\
  fst (calculate_children_statistics seed_members seed_heap) =
    (map (fun r => (name (seed_heap r), List.length (children (seed_heap r))))
         (dict_values seed_members), (inject_Z 8 / inject_Z 8)%Q).
Proof.
  assert (Hnd : NoDup (map (fun r => name (seed_heap r)) (dict_values seed_members))).
  { vm_compute. repeat constructor; simpl; intuition discriminate. }
  split; [exact Hnd|].
  destruct (children_statistics_spec seed_members seed_heap Hnd) as [H _].
  rewrite H. vm_compute. reflexivity.
Defined.

(** ** Registry construction *)

Lemma dict_get_set (d : registry) (k n : string) (v : ref) :
  dict_get (dict_set d k v) n = if String.eqb n k then Some v else dict_get d n.
Proof.
  induction d as [|[k' v'] d IH]; simpl.
  - destruct (String.eqb n k); reflexivity.
  - destruct (String.eqb k k') eqn:E.
    + apply String.eqb_eq in E. subst k'. simpl. destruct (String.eqb n k); reflexivity.
    + simpl. rewrite IH. destruct (String.eqb n k') eqn:E'; [|reflexivity].
      apply String.eqb_eq in E'. subst n. destruct (String.eqb k' k) eqn:E''; [|reflexivity].
      apply String.eqb_eq in E''. subst. rewrite String.eqb_refl in E. discriminate.
Qed.

Lemma registry_fold_get (h : heap) (rs : list ref) (d : registry) (n : string) :
  dict_get (fold_left (fun d r => dict_set d (name (h r)) r) rs d) n =
  match last_named h n rs with Some r => Some r | None => dict_get d n end.
Proof.
  revert d. induction rs as [|r rs IH]; intros d; [reflexivity|].
  cbn [fold_left]. rewrite IH. cbn [last_named].
  destruct (last_named h n rs); [reflexivity|].
  rewrite dict_get_set, String.eqb_sym. destruct (String.eqb (name (h r)) n); reflexivity.
Qed.

(** A registry written as a dict literal [{p.name: p, ...}]: looking up a
    name finds the last listed person with that name (a later entry
    overwrites an earlier one), and [None] when no listed person has it. *)
Theorem registry_literal_last_wins (h : heap) (rs : list ref) (n : string) :
  get_person (registry_of h rs) n = last_named h n rs.
Proof.
  unfold get_person, registry_of. rewrite registry_fold_get.
  destruct (last_named h n rs); reflexivity.
Qed.

(** ** Grandparents *)

(** [find_grandparents p] lists the parents of each parent of [p], parent
    by parent in stored order, without removing repeats: its length is
    the sum of the parents' parent counts. *)
Theorem find_grandparents_concat (h : heap) (p : ref) :
  fst (find_grandparents p h) = List.concat (map (fun q => parents (h q)) (parents (h p))) /\
  List.length (fst (find_grandparents p h)) =
    fold_right Nat.add 0%nat (map (fun q => List.length (parents (h q))) (parents (h p))).
Proof.
  rewrite (runs_as_fst _ _ h (find_grandparents_runs p)). unfold grandparents_of.
  rewrite fold_app_concat. simpl. split; [reflexivity|].
  induction (parents (h p)) as [|q qs IH]; simpl; [reflexivity|].
  rewrite length_app, IH. reflexivity.
Qed.

(** ** Set semantics of the family queries *)

Lemma immediate_of_NoDup (h : heap) (p : ref) : NoDup (immediate_of h p).
Proof.
  unfold immediate_of. apply set_update_NoDup.
  destruct (spouse (h p)); auto with sets.
Qed.

Lemma extended_unfiltered_NoDup (h : heap) (p : ref) : NoDup (extended_unfiltered h p).
Proof.
  unfold extended_unfiltered.
  assert (Hin : forall ss e, NoDup e ->
            NoDup (fold_left (fun e s => set_update (set_add s e) (children (h s))) ss e)).
  { induction ss as [|s ss IH]; intros e He; simpl; [exact He|]. apply IH. auto with sets. }
  generalize (set_update [] (immediate_of h p)) (set_update_NoDup (immediate_of h p) [] (NoDup_nil _)).
  induction (parents (h p)) as [|q qs IH]; intros e He; simpl; [exact He|].
  apply IH, Hin, He.
Qed.

(** [find_immediate_family] and [find_extended_family] never list a
    person twice: both are built as Python sets. *)
Theorem family_no_duplicates (h : heap) (p : ref) :
  NoDup (fst (find_immediate_family p h)) /\ NoDup (fst (find_extended_family p h)).
Proof.
  rewrite (runs_as_fst _ _ h (find_immediate_family_runs p)),
          (runs_as_fst _ _ h (find_extended_family_runs p)).
  split; [apply immediate_of_NoDup|]. apply NoDup_filter, extended_unfiltered_NoDup.
Qed.

(** ** Siblings, orphans and cousins *)

(** Siblinghood is symmetric when the links through [x]'s parents are
    consistent both ways: if [y] is a sibling of [x], each parent [q] of
    [x] lists [x] as a child, and [y] lists as a parent each parent of [x]
    that lists [y] as a child, then [x] is a sibling of [y]. *)
Theorem siblings_symmetric (h : heap) (x y : ref)
  (Hx : forall q, In q (parents (h x)) -> In x (children (h q)))
  (Hy : forall q, In q (parents (h x)) -> In y (children (h q)) -> In q (parents (h y)))
  (Hxy : In y (fst (find_siblings x h))) :
  In x (fst (find_siblings y h)).
Proof.
  rewrite (runs_as_fst _ _ h (find_siblings_runs y)).
  rewrite (runs_as_fst _ _ h (find_siblings_runs x)) in Hxy.
  apply siblings_of_In in Hxy as [Hne [q [Hq Hyq]]]. apply siblings_of_In.
  split; [intros E; apply Hne; symmetry; exact E|].
  exists q. split; [apply Hy; assumption | apply Hx, Hq].
Qed.

Lemma siblings_symmetric_witness :
  In child1 (fst (find_siblings child2 seed_heap)).
Proof.
  apply siblings_symmetric.
  - intros q Hq. vm_compute in Hq. destruct Hq as [<-|[<-|[]]]; vm_compute; tauto.
  - intros q Hq _. vm_compute in Hq. destruct Hq as [<-|[<-|[]]]; vm_compute; tauto.
  - vm_compute. tauto.
Defined.

(** A person with no recorded parents has no siblings, cousins or
    grandparents, and an immediate family made of the spouse, if any,
    and the children. *)
Theorem orphan_relatives (h : heap) (p : ref) (Hp : parents (h p) = []) :
  fst (find_siblings p h) = [] /\ fst (find_cousins p h) = [] /\
  fst (find_grandparents p h) = [] /\
  (forall x, In x (fst (find_immediate_family p h)) <->
             spouse (h p) = Some x \/ In x (children (h p))).
Proof.
  assert (Hs : siblings_of h p = []) by (unfold siblings_of; rewrite Hp; reflexivity).
  rewrite (runs_as_fst _ _ h (find_siblings_runs p)),
          (runs_as_fst _ _ h (find_cousins_runs p)),
          (runs_as_fst _ _ h (find_grandparents_runs p)),
          (runs_as_fst _ _ h (find_immediate_family_runs p)).
  split; [exact Hs|]. split; [unfold cousins_loop; rewrite Hp; reflexivity|].
  split; [unfold grandparents_of; rewrite Hp; reflexivity|].
  intros x. rewrite immediate_of_In, Hs, Hp. simpl. tauto.
Qed.

Lemma orphan_relatives_witness :
  parents (seed_heap anna) = [] /\ fst (find_siblings anna seed_heap) = [].
Proof.
  assert (Hp : parents (seed_heap anna) = []) by (vm_compute; reflexivity).
  split; [exact Hp|]. destruct (orphan_relatives seed_heap anna Hp) as [H _]. exact H.
Defined.

(** Neither [find_cousins] nor [find_extended_family] removes the person
    asked about: when a sibling [s] of a parent [q] of [p] is also a
    parent of [p], [p] is among its own cousins, and among its own
    extended family when living. *)
Theorem own_cousin (h : heap) (p q s : ref)
  (Hq : In q (parents (h p))) (Hs : In s (fst (find_siblings q h)))
  (Hps : In p (children (h s))) :
  In p (fst (find_cousins p h)) /\
  (is_living (h p) = true -> In p (fst (find_extended_family p h))).
Proof.
  rewrite (runs_as_fst _ _ h (find_siblings_runs q)) in Hs.
  rewrite find_cousins_eq_spec, (runs_as_fst _ _ h (find_extended_family_runs p)). simpl.
  split.
  - unfold cousins_spec. apply in_concat. eexists. split; [apply in_map, Hq|].
    rewrite (runs_as_fst _ _ h (find_siblings_runs q)).
    apply in_concat. eexists. split; [apply (in_map (fun s => children (h s))), Hs|exact Hps].
  - intros Hl. apply filter_living_of_In. split; [|exact Hl].
    apply extended_unfiltered_In. right. exists q, s. tauto.
Qed.

Lemma own_cousin_witness :
  In 4%nat (fst (find_cousins 4%nat dup_heap)) /\
  In 4%nat (fst (find_extended_family 4%nat dup_heap)).
Proof.
  assert (Hq : In 1%nat (parents (dup_heap 4%nat))) by (vm_compute; tauto).
  assert (Hs : In 2%nat (fst (find_siblings 1%nat dup_heap))) by (vm_compute; tauto).
  assert (Hps : In 4%nat (children (dup_heap 2%nat))) by (vm_compute; tauto).
  assert (Hl : is_living (dup_heap 4%nat) = true) by (vm_compute; reflexivity).
  destruct (own_cousin dup_heap 4%nat 1%nat 2%nat Hq Hs Hps) as [H1 H2].
  split; [exact H1|]. exact (H2 Hl).
Defined.

(** ** Sign of the average age at death *)

Lemma deceased_age_sum_nonneg (h : heap) (xs : list ref) :
  (forall r d, In r xs -> kind (h r) = DeceasedPerson d ->
               (toordinal (birth_date (h r)) <= toordinal d)%Z) ->
  (0 <= deceased_age_sum h xs)%Z.
Proof.
  unfold deceased_age_sum. induction xs as [|x xs IH]; intros Hd; simpl; [lia|].
  assert (IH' : (0 <= fold_right Z.add 0%Z (map (fun r => age_at_death (h r))
                   (filter (fun r => negb (is_living (h r))) xs)))%Z)
    by (apply IH; intros r d Hr; apply Hd; right; exact Hr).
  destruct (negb (is_living (h x))); simpl; [|exact IH'].
  assert (0 <= age_at_death (h x))%Z.
  { unfold age_at_death. destruct (kind (h x)) as [|d] eqn:Hk; [lia|].
    apply Z_div_pos; [lia|]. unfold days_between.
    specialize (Hd x d (or_introl eq_refl) Hk). lia. }
  lia.
Qed.

(** [calculate_average_age] is never negative when no deceased member
    died before being born (each [(death - birth).days // 365] is then
    at least 0). *)
Theorem average_age_nonneg (members : registry) (h : heap)
  (Hd : forall r d, In r (dict_values members) -> kind (h r) = DeceasedPerson d ->
                    (toordinal (birth_date (h r)) <= toordinal d)%Z) :
  (0 <= fst (calculate_average_age members h))%Q.
Proof.
  unfold calculate_average_age, bind.
  rewrite (runs_as_fold_st _ (fun (acc : Z * Z) r h =>
             match kind (h r) with
             | DeceasedPerson _ => (fst acc + age_at_death (h r), snd acc + 1)%Z
             | LivingPerson => acc
             end)).
  2: { intros acc r h'. reflexivity. }
  rewrite average_fold. simpl.
  destruct (Z.ltb 0 _) eqn:E; [|apply Qle_refl].
  apply Z.ltb_lt in E.
  apply Qmult_le_0_compat.
  - change 0%Q with (inject_Z 0). rewrite <- Zle_Qle.
    pose proof (deceased_age_sum_nonneg h _ Hd). lia.
  - apply Qinv_le_0_compat. change 0%Q with (inject_Z 0). rewrite <- Zle_Qle. lia.
Qed.

Lemma average_age_nonneg_witness :
  (0 <= fst (calculate_average_age seed_members seed_heap))%Q.
Proof.
  apply average_age_nonneg.
  intros r d Hr Hk. vm_compute in Hr.
  repeat (destruct Hr as [<-|Hr];
          [vm_compute in Hk; first [discriminate | injection Hk as <-; vm_compute; discriminate]|]).
  destruct Hr.
Defined.

(** ** Every member in the birthday calendar *)

Lemma cal_append_concat (c : calendar) (k : md_key) (n : string) :
  Permutation (List.concat (map snd (cal_append c k n))) (List.concat (map snd c) ++ [n]).
Proof.
  induction c as [|[k0 ns] c IH]; simpl; [reflexivity|].
  destruct (key_eqb k k0); simpl.
  - rewrite <- !app_assoc. apply Permutation_app_head. apply Permutation_app_comm.
  - rewrite <- app_assoc. apply Permutation_app_head, IH.
Qed.

Lemma calendar_fold_concat (h : heap) (xs : list ref) (c0 : calendar) :
  Permutation
    (List.concat (map snd (fold_left (fun cal r => cal_append cal (birth_key (h r)) (name (h r)))
                                     xs c0)))
    (List.concat (map snd c0) ++ map (fun r => name (h r)) xs).
Proof.
  revert c0. induction xs as [|x xs IH]; intros c0; simpl; [rewrite app_nil_r; reflexivity|].
  rewrite IH, cal_append_concat, <- app_assoc. reflexivity.
Qed.

(** [get_birthdays_calendar] lists each member's name exactly once over
    all its days: the concatenated groups are a permutation of the names
    of the members. *)
Theorem birthday_calendar_every_member_once (members : registry) (h : heap) :
  Permutation (List.concat (map snd (fst (get_birthdays_calendar members h))))
              (map (fun r => name (h r)) (dict_values members)).
Proof.
  rewrite get_birthdays_calendar_eq. simpl.
  rewrite <- !flat_map_concat_map.
  rewrite (Permutation_flat_map snd (cal_sort_perm _)).
  rewrite flat_map_concat_map, calendar_fold_concat. reflexivity.
Qed.

(** ** Shared list objects *)

Section SharedLists.

Lemma skipn_nth_error {A} (xs : list A) (i : nat) (x : A) :
  nth_error xs i = Some x -> skipn i xs = x :: skipn (S i) xs.
Proof.
  revert xs. induction i as [|i IH]; intros [|y xs] H; simpl in *; try discriminate.
  - injection H as ->. reflexivity.
  - apply IH, H.
Qed.

(** The loop [for x in l: field(x).append(self)], when no element of [l]
    holds [l] itself in [field]: it visits the elements from index [i]
    and appends [self] once per visited element to the list object in
    its [field]. *)
Lemma append_each_exact (field : aperson -> lid) (self : ref) (l : lid) (fuel i : nat) (s : astore) :
  (forall x, In x (lists s l) -> field (objs s x) <> l) ->
  (List.length (lists s l) - i < fuel)%nat ->
  exists s', append_each fuel field self l i s = Some s' /\
    objs s' = objs s /\ next_lid s' = next_lid s /\
    forall k, lists s' k = lists s k ++
      repeat self (count_occ Nat.eq_dec (map (fun x => field (objs s x)) (skipn i (lists s l))) k).
Proof.
  revert i s. induction fuel as [|f IH]; intros i s Hl Hf; [lia|].
  simpl. destruct (nth_error (lists s l) i) as [x|] eqn:Ex.
  - assert (Hx : field (objs s x) <> l) by (apply Hl; eapply nth_error_In; exact Ex).
    assert (E1 : lists (list_append s (field (objs s x)) self) l = lists s l).
    { simpl. destruct (Nat.eqb l (field (objs s x))) eqn:E; [|reflexivity].
      apply Nat.eqb_eq in E. congruence. }
    destruct (IH (S i) (list_append s (field (objs s x)) self)) as [s' [Hs' [Ho [Hn Hk]]]].
    { rewrite E1. exact Hl. }
    { rewrite E1.
      assert (Hi : (i < List.length (lists s l))%nat)
        by (apply nth_error_Some; rewrite Ex; discriminate).
      lia. }
    exists s'. split; [exact Hs'|]. split; [exact Ho|]. split; [exact Hn|].
    intros k. rewrite Hk, E1, (skipn_nth_error _ _ _ Ex). cbn [map]. simpl objs.
    destruct (Nat.eq_dec (field (objs s x)) k) as [<-|Hne].
    + rewrite (count_occ_cons_eq Nat.eq_dec _ (eq_refl (field (objs s x)))).
      simpl lists. rewrite Nat.eqb_refl. simpl repeat. rewrite <- app_assoc. reflexivity.
    + rewrite (count_occ_cons_neq Nat.eq_dec _ Hne). simpl lists.
      destruct (Nat.eqb k (field (objs s x))) eqn:E; [|reflexivity].
      apply Nat.eqb_eq in E. congruence.
  - exists s. split; [reflexivity|]. split; [reflexivity|]. split; [reflexivity|].
    intros k. apply nth_error_None in Ex. rewrite (skipn_all2 _ Ex). simpl.
    rewrite app_nil_r. reflexivity.
Qed.

Lemma shared_count_zero (s : astore) (field : aperson -> lid) (l k : lid) :
  (forall x, In x (lists s l) -> field (objs s x) <> k) -> shared_count s field l k = 0%nat.
Proof.
  intros H. unfold shared_count. apply (count_occ_not_In Nat.eq_dec).
  intros Hin. apply in_map_iff in Hin as [x [Hx Hin]]. exact (H x Hin Hx).
Qed.

(** When [field] tells the persons [rs] apart, counting the list objects
    of the elements of [l] is counting the persons. *)
Lemma shared_count_inj (s : astore) (field : aperson -> lid) (l : lid) (rs : list ref) (y : ref) :
  (forall x z, In x rs -> In z rs -> field (objs s x) = field (objs s z) -> x = z) ->
  incl (lists s l) rs -> In y rs ->
  shared_count s field l (field (objs s y)) = count_occ Nat.eq_dec (lists s l) y.
Proof.
  unfold shared_count. intros Hinj. generalize (lists s l). intros xs Hxs Hy.
  induction xs as [|x xs IH]; [reflexivity|].
  cbn [map]. assert (Hx : In x rs) by (apply Hxs; left; reflexivity).
  assert (Hxs' : incl xs rs) by (intros z Hz; apply Hxs; right; exact Hz).
  destruct (Nat.eq_dec x y) as [<-|Hne].
  - rewrite (count_occ_cons_eq Nat.eq_dec _ (eq_refl (field (objs s x)))).
    rewrite (count_occ_cons_eq Nat.eq_dec _ (eq_refl x)). f_equal. apply IH, Hxs'.
  - rewrite (count_occ_cons_neq Nat.eq_dec _ Hne).
    rewrite count_occ_cons_neq; [apply IH, Hxs'|].
    intros E. apply Hne, Hinj; assumption.
Qed.

Lemma aset_parents_exact (fuel : nat) (self : ref) (l : lid) (s : astore) :
  (forall x, In x (lists s l) -> a_children (objs s x) <> l) ->
  (List.length (lists s l) < fuel)%nat ->
  exists s', aset_parents fuel self l s = Some s' /\
    (forall x, objs s' x =
       if Nat.eqb x self
       then mkAPerson (a_name (objs s self)) (a_birth_date (objs s self)) (a_kind (objs s self))
                      l (a_children (objs s self)) (a_spouse (objs s self))
       else objs s x) /\
    forall k, lists s' k = lists s k ++ repeat self (shared_count s a_children l k).
Proof.
  intros Hl Hf. unfold aset_parents.
  set (s1 := aupd_obj s self _).
  assert (Hc : forall x, a_children (objs s1 x) = a_children (objs s x)).
  { intros x. simpl. destruct (Nat.eqb x self) eqn:E; [apply Nat.eqb_eq in E; subst x|]; reflexivity. }
  destruct (append_each_exact a_children self l fuel 0 s1) as [s' [Hs' [Ho [_ Hk]]]].
  { intros x. rewrite Hc. apply Hl. }
  { simpl. lia. }
  exists s'. split; [exact Hs'|]. split.
  - intros x. rewrite Ho. reflexivity.
  - intros k. rewrite Hk. unfold shared_count. simpl skipn.
    rewrite (map_ext _ _ Hc). reflexivity.
Qed.

Lemma aset_children_exact (fuel : nat) (self : ref) (l : lid) (s : astore) :
  (forall x, In x (lists s l) -> a_parents (objs s x) <> l) ->
  (List.length (lists s l) < fuel)%nat ->
  exists s', aset_children fuel self l s = Some s' /\
    (forall x, objs s' x =
       if Nat.eqb x self
       then mkAPerson (a_name (objs s self)) (a_birth_date (objs s self)) (a_kind (objs s self))
                      (a_parents (objs s self)) l (a_spouse (objs s self))
       else objs s x) /\
    forall k, lists s' k = lists s k ++ repeat self (shared_count s a_parents l k).
Proof.
  intros Hl Hf. unfold aset_children.
  set (s1 := aupd_obj s self _).
  assert (Hc : forall x, a_parents (objs s1 x) = a_parents (objs s x)).
  { intros x. simpl. destruct (Nat.eqb x self) eqn:E; [apply Nat.eqb_eq in E; subst x|]; reflexivity. }
  destruct (append_each_exact a_parents self l fuel 0 s1) as [s' [Hs' [Ho [_ Hk]]]].
  { intros x. rewrite Hc. apply Hl. }
  { simpl. lia. }
  exists s'. split; [exact Hs'|]. split.
  - intros x. rewrite Ho. reflexivity.
  - intros k. rewrite Hk. unfold shared_count. simpl skipn.
    rewrite (map_ext _ _ Hc). reflexivity.
Qed.

Lemma person_ext (p q : person) :
  identity p = identity q -> parents p = parents q -> children p = children q ->
  spouse p = spouse q -> p = q.
Proof.
  destruct p, q. unfold identity. simpl. intros H Hp Hc Hs.
  injection H as -> -> ->. subst. reflexivity.
Qed.

End SharedLists.

(** [set_parents self l] on shared list objects, when no parent in [l]
    holds [l] itself as its child list (otherwise the loop also visits
    what it appends): [l] becomes the parent list of [self], and every
    list object gains [self] once per parent whose [_children] is that
    object.  So a person's child list, and the parent list of a person
    other than [self], grows by one [self] per parent in [l] that holds
    the same list object: an append through one holder of a shared list
    shows through every other holder.  Names, dates, classes and
    spouses are unchanged. *)
Theorem set_parents_shared_effect (fuel : nat) (s : astore) (self : ref) (l : lid)
  (Hl : forall x, In x (lists s l) -> a_children (objs s x) <> l)
  (Hf : (List.length (lists s l) < fuel)%nat) :
  exists s', aset_parents fuel self l s = Some s' /\
    a_parents (objs s' self) = l /\
    parents (deref s' self) = lists s l /\
    (forall y, children (deref s' y) =
       children (deref s y) ++ repeat self (shared_count s a_children l (a_children (objs s y)))) /\
    (forall y, y <> self -> parents (deref s' y) =
       parents (deref s y) ++ repeat self (shared_count s a_children l (a_parents (objs s y)))) /\
    (forall y, identity (deref s' y) = identity (deref s y) /\ spouse (deref s' y) = spouse (deref s y)).
Proof.
  destruct (aset_parents_exact fuel self l s Hl Hf) as [s' [Hs' [Ho Hk]]].
  exists s'. split; [exact Hs'|].
  split; [rewrite Ho, Nat.eqb_refl; reflexivity|].
  split.
  { unfold deref. rewrite Ho, Nat.eqb_refl. simpl. rewrite Hk.
    rewrite (shared_count_zero s a_children l l Hl). apply app_nil_r. }
  split.
  { intros y. unfold deref. rewrite Ho. simpl.
    destruct (Nat.eqb y self) eqn:E; [apply Nat.eqb_eq in E; subst y|]; simpl; apply Hk. }
  split.
  { intros y Hy. unfold deref. rewrite Ho. apply Nat.eqb_neq in Hy. rewrite Hy. simpl. apply Hk. }
  intros y. unfold deref. rewrite Ho.
  destruct (Nat.eqb y self) eqn:E; [apply Nat.eqb_eq in E; subst y|]; split; reflexivity.
Qed.

Lemma set_parents_shared_effect_witness :
  (forall x, In x (lists shared_kids_s0 shared_kids_l) ->
             a_children (objs shared_kids_s0 x) <> shared_kids_l) /\
  (List.length (lists shared_kids_s0 shared_kids_l) < seed_fuel)%nat /\
  exists s', aset_parents seed_fuel child2 shared_kids_l shared_kids_s0 = Some s' /\
    children (deref s' cornelia) = [child1; child2] /\
    children (deref s' otto) = [child1; child2].
Proof.
  assert (Hl : forall x, In x (lists shared_kids_s0 shared_kids_l) ->
                         a_children (objs shared_kids_s0 x) <> shared_kids_l).
  { intros x Hx. vm_compute in Hx. destruct Hx as [<-|[]]. vm_compute. discriminate. }
  assert (Hf : (List.length (lists shared_kids_s0 shared_kids_l) < seed_fuel)%nat)
    by (vm_compute; lia).
  split; [exact Hl|]. split; [exact Hf|].
  destruct (set_parents_shared_effect seed_fuel shared_kids_s0 child2 shared_kids_l Hl Hf)
    as [s' [Hs' [_ [_ [Hc _]]]]].
  exists s'. split; [exact Hs'|].
  rewrite !Hc. split; vm_compute; reflexivity.
Defined.

(** [set_children self l] on shared list objects, when no child in [l]
    holds [l] itself as its parent list: [l] becomes the child list of
    [self], and every list object gains [self] once per child whose
    [_parents] is that object.  So a person's parent list, and the child
    list of a person other than [self], grows by one [self] per child in
    [l] that holds the same list object.  Names, dates, classes and
    spouses are unchanged. *)
Theorem set_children_shared_effect (fuel : nat) (s : astore) (self : ref) (l : lid)
  (Hl : forall x, In x (lists s l) -> a_parents (objs s x) <> l)
  (Hf : (List.length (lists s l) < fuel)%nat) :
  exists s', aset_children fuel self l s = Some s' /\
    a_children (objs s' self) = l /\
    children (deref s' self) = lists s l /\
    (forall y, parents (deref s' y) =
       parents (deref s y) ++ repeat self (shared_count s a_parents l (a_parents (objs s y)))) /\
    (forall y, y <> self -> children (deref s' y) =
       children (deref s y) ++ repeat self (shared_count s a_parents l (a_children (objs s y)))) /\
    (forall y, identity (deref s' y) = identity (deref s y) /\ spouse (deref s' y) = spouse (deref s y)).
Proof.
  destruct (aset_children_exact fuel self l s Hl Hf) as [s' [Hs' [Ho Hk]]].
  exists s'. split; [exact Hs'|].
  split; [rewrite Ho, Nat.eqb_refl; reflexivity|].
  split.
  { unfold deref. rewrite Ho, Nat.eqb_refl. simpl. rewrite Hk.
    rewrite (shared_count_zero s a_parents l l Hl). apply app_nil_r. }
  split.
  { intros y. unfold deref. rewrite Ho. simpl.
    destruct (Nat.eqb y self) eqn:E; [apply Nat.eqb_eq in E; subst y|]; simpl; apply Hk. }
  split.
  { intros y Hy. unfold deref. rewrite Ho. apply Nat.eqb_neq in Hy. rewrite Hy. simpl. apply Hk. }
  intros y. unfold deref. rewrite Ho.
  destruct (Nat.eqb y self) eqn:E; [apply Nat.eqb_eq in E; subst y|]; split; reflexivity.
Qed.

Lemma set_children_shared_effect_witness :
  (forall x, In x (lists shared_ps_s0 shared_ps_l) ->
             a_parents (objs shared_ps_s0 x) <> shared_ps_l) /\
  (List.length (lists shared_ps_s0 shared_ps_l) < seed_fuel)%nat /\
  exists s', aset_children seed_fuel raj shared_ps_l shared_ps_s0 = Some s' /\
    parents (deref s' cornelia) = [anna; raj] /\
    parents (deref s' otto) = [anna; raj].
Proof.
  assert (Hl : forall x, In x (lists shared_ps_s0 shared_ps_l) ->
                         a_parents (objs shared_ps_s0 x) <> shared_ps_l).
  { intros x Hx. vm_compute in Hx. destruct Hx as [<-|[]]. vm_compute. discriminate. }
  assert (Hf : (List.length (lists shared_ps_s0 shared_ps_l) < seed_fuel)%nat)
    by (vm_compute; lia).
  split; [exact Hl|]. split; [exact Hf|].
  destruct (set_children_shared_effect seed_fuel shared_ps_s0 raj shared_ps_l Hl Hf)
    as [s' [Hs' [_ [_ [Hp _]]]]].
  exists s'. split; [exact Hs'|].
  rewrite !Hp. split; vm_compute; reflexivity.
Defined.

Lemma aset_parents_again (fuel : nat) (self : ref) (l : lid) (s : astore) :
  (forall x, In x (lists s l) -> a_children (objs s x) <> l) ->
  (List.length (lists s l) < fuel)%nat ->
  exists s1 s2, aset_parents fuel self l s = Some s1 /\ aset_parents fuel self l s1 = Some s2 /\
    (forall x, a_children (objs s2 x) = a_children (objs s x)) /\
    forall k, lists s2 k = lists s k ++ repeat self (2 * shared_count s a_children l k).
Proof.
  intros Hl Hf.
  destruct (aset_parents_exact fuel self l s Hl Hf) as [s1 [Hs1 [Ho1 Hk1]]].
  assert (Hc : forall x, a_children (objs s1 x) = a_children (objs s x)).
  { intros x. rewrite Ho1. destruct (Nat.eqb x self) eqn:E; [apply Nat.eqb_eq in E; subst x|]; reflexivity. }
  assert (El : lists s1 l = lists s l).
  { rewrite Hk1, (shared_count_zero s a_children l l Hl). apply app_nil_r. }
  assert (Ec : forall k, shared_count s1 a_children l k = shared_count s a_children l k).
  { intros k. unfold shared_count. rewrite El, (map_ext _ _ Hc). reflexivity. }
  destruct (aset_parents_exact fuel self l s1) as [s2 [Hs2 [Ho2 Hk2]]].
  { rewrite El. intros x. rewrite Hc. apply Hl. }
  { rewrite El. exact Hf. }
  exists s1, s2. split; [exact Hs1|]. split; [exact Hs2|]. split.
  { intros x. rewrite <- Hc, Ho2.
    destruct (Nat.eqb x self) eqn:E; [apply Nat.eqb_eq in E; subst x|]; reflexivity. }
  intros k. rewrite Hk2, Hk1, Ec, <- app_assoc, <- repeat_app. do 2 f_equal. lia.
Qed.

Lemma aset_children_again (fuel : nat) (self : ref) (l : lid) (s : astore) :
  (forall x, In x (lists s l) -> a_parents (objs s x) <> l) ->
  (List.length (lists s l) < fuel)%nat ->
  exists s1 s2, aset_children fuel self l s = Some s1 /\ aset_children fuel self l s1 = Some s2 /\
    (forall x, a_parents (objs s2 x) = a_parents (objs s x)) /\
    forall k, lists s2 k = lists s k ++ repeat self (2 * shared_count s a_parents l k).
Proof.
  intros Hl Hf.
  destruct (aset_children_exact fuel self l s Hl Hf) as [s1 [Hs1 [Ho1 Hk1]]].
  assert (Hc : forall x, a_parents (objs s1 x) = a_parents (objs s x)).
  { intros x. rewrite Ho1. destruct (Nat.eqb x self) eqn:E; [apply Nat.eqb_eq in E; subst x|]; reflexivity. }
  assert (El : lists s1 l = lists s l).
  { rewrite Hk1, (shared_count_zero s a_parents l l Hl). apply app_nil_r. }
  assert (Ec : forall k, shared_count s1 a_parents l k = shared_count s a_parents l k).
  { intros k. unfold shared_count. rewrite El, (map_ext _ _ Hc). reflexivity. }
  destruct (aset_children_exact fuel self l s1) as [s2 [Hs2 [Ho2 Hk2]]].
  { rewrite El. intros x. rewrite Hc. apply Hl. }
  { rewrite El. exact Hf. }
  exists s1, s2. split; [exact Hs1|]. split; [exact Hs2|]. split.
  { intros x. rewrite <- Hc, Ho2.
    destruct (Nat.eqb x self) eqn:E; [apply Nat.eqb_eq in E; subst x|]; reflexivity. }
  intros k. rewrite Hk2, Hk1, Ec, <- app_assoc, <- repeat_app. do 2 f_equal. lia.
Qed.

(** Calling [set_parents self l] twice appends [self] to each list object
    twice per parent in [l] holding it as [_children], and
    [set_children self l] twice appends [self] twice per child holding
    it as [_parents]: there is no guard against repetition, and two
    parents sharing one child list make it receive [self] four times. *)
Theorem link_twice_shared (fuel : nat) (s : astore) (self : ref) (l : lid)
  (Hp : forall x, In x (lists s l) -> a_children (objs s x) <> l)
  (Hc : forall x, In x (lists s l) -> a_parents (objs s x) <> l)
  (Hf : (List.length (lists s l) < fuel)%nat) :
  (exists s1 s2, aset_parents fuel self l s = Some s1 /\ aset_parents fuel self l s1 = Some s2 /\
     forall y, children (deref s2 y) =
       children (deref s y) ++ repeat self (2 * shared_count s a_children l (a_children (objs s y)))) /\
  (exists s1 s2, aset_children fuel self l s = Some s1 /\ aset_children fuel self l s1 = Some s2 /\
     forall y, parents (deref s2 y) =
       parents (deref s y) ++ repeat self (2 * shared_count s a_parents l (a_parents (objs s y)))).
Proof.
  split.
  - destruct (aset_parents_again fuel self l s Hp Hf) as [s1 [s2 [H1 [H2 [Hx Hk]]]]].
    exists s1, s2. split; [exact H1|]. split; [exact H2|].
    intros y. unfold deref. simpl. rewrite Hx. apply Hk.
  - destruct (aset_children_again fuel self l s Hc Hf) as [s1 [s2 [H1 [H2 [Hx Hk]]]]].
    exists s1, s2. split; [exact H1|]. split; [exact H2|].
    intros y. unfold deref. simpl. rewrite Hx. apply Hk.
Qed.

Lemma link_twice_shared_witness :
  (forall x, In x (lists shared_twice_s0 shared_twice_l) ->
             a_children (objs shared_twice_s0 x) <> shared_twice_l) /\
  (forall x, In x (lists shared_twice_s0 shared_twice_l) ->
             a_parents (objs shared_twice_s0 x) <> shared_twice_l) /\
  (List.length (lists shared_twice_s0 shared_twice_l) < seed_fuel)%nat /\
  exists s1 s2, aset_parents seed_fuel child1 shared_twice_l shared_twice_s0 = Some s1 /\
    aset_parents seed_fuel child1 shared_twice_l s1 = Some s2 /\
    children (deref s2 cornelia) = [child1; child1; child1; child1] /\
    children (deref s2 otto) = [child1; child1; child1; child1].
Proof.
  assert (Hp : forall x, In x (lists shared_twice_s0 shared_twice_l) ->
                         a_children (objs shared_twice_s0 x) <> shared_twice_l).
  { intros x Hx. vm_compute in Hx. destruct Hx as [<-|[<-|[]]]; vm_compute; discriminate. }
  assert (Hc : forall x, In x (lists shared_twice_s0 shared_twice_l) ->
                         a_parents (objs shared_twice_s0 x) <> shared_twice_l).
  { intros x Hx. vm_compute in Hx. destruct Hx as [<-|[<-|[]]]; vm_compute; discriminate. }
  assert (Hf : (List.length (lists shared_twice_s0 shared_twice_l) < seed_fuel)%nat)
    by (vm_compute; lia).
  split; [exact Hp|]. split; [exact Hc|]. split; [exact Hf|].
  destruct (link_twice_shared seed_fuel shared_twice_s0 child1 shared_twice_l Hp Hc Hf)
    as [[s1 [s2 [H1 [H2 Hk]]]] _].
  exists s1, s2. split; [exact H1|]. split; [exact H2|].
  rewrite !Hk. split; vm_compute; reflexivity.
Defined.

(** The copy model agrees with the shared-list model: when the persons
    [rs] hold pairwise distinct list objects, the list [l] passed to
    [set_parents] or [set_children] is held by none of them and lists
    only persons of [rs], the call on list objects yields, read through
    [deref], the same persons of [rs] as the call of the copy model on
    the contents of [l]. *)
Theorem copy_model_agrees (fuel : nat) (s : astore) (self : ref) (l : lid) (rs : list ref)
  (Hself : In self rs) (Hrs : incl (lists s l) rs) (Hu : unshared_on s rs l)
  (Hf : (List.length (lists s l) < fuel)%nat) :
  (exists s', aset_parents fuel self l s = Some s' /\
     forall y, In y rs -> deref s' y = snd (set_parents self (lists s l) (deref s)) y) /\
  (exists s', aset_children fuel self l s = Some s' /\
     forall y, In y rs -> deref s' y = snd (set_children self (lists s l) (deref s)) y).
Proof.
  destruct Hu as [Uc [Up [Upc Ul]]].
  split.
  - assert (Hl : forall x, In x (lists s l) -> a_children (objs s x) <> l)
      by (intros x Hx; apply (Ul x (Hrs x Hx))).
    destruct (aset_parents_exact fuel self l s Hl Hf) as [s' [Hs' [Ho Hk]]].
    exists s'. split; [exact Hs'|]. intros y Hy.
    destruct (set_parents_exact self (deref s) (lists s l) y) as [Pp [Pc [Ps Pi]]].
    apply person_ext.
    + rewrite Pi. unfold deref, identity. simpl. rewrite Ho.
      destruct (Nat.eqb y self) eqn:E; [apply Nat.eqb_eq in E; subst y|]; reflexivity.
    + rewrite Pp. unfold deref. simpl. rewrite Ho, Hk.
      destruct (Nat.eqb y self) eqn:E; simpl.
      * rewrite (shared_count_zero s a_children l l Hl). apply app_nil_r.
      * rewrite shared_count_zero; [apply app_nil_r|].
        intros x Hx. apply not_eq_sym, Upc; [exact Hy|apply Hrs, Hx].
    + rewrite Pc.
      assert (Ey : a_children (objs s' y) = a_children (objs s y)).
      { rewrite Ho. destruct (Nat.eqb y self) eqn:E; [apply Nat.eqb_eq in E; subst y|]; reflexivity. }
      unfold deref. simpl. rewrite Ey, Hk, (shared_count_inj s a_children l rs y Uc Hrs Hy).
      reflexivity.
    + rewrite Ps. unfold deref. simpl. rewrite Ho.
      destruct (Nat.eqb y self) eqn:E; [apply Nat.eqb_eq in E; subst y|]; reflexivity.
  - assert (Hl : forall x, In x (lists s l) -> a_parents (objs s x) <> l)
      by (intros x Hx; apply (Ul x (Hrs x Hx))).
    destruct (aset_children_exact fuel self l s Hl Hf) as [s' [Hs' [Ho Hk]]].
    exists s'. split; [exact Hs'|]. intros y Hy.
    destruct (set_children_exact self (deref s) (lists s l) y) as [Pc [Pp [Ps Pi]]].
    apply person_ext.
    + rewrite Pi. unfold deref, identity. simpl. rewrite Ho.
      destruct (Nat.eqb y self) eqn:E; [apply Nat.eqb_eq in E; subst y|]; reflexivity.
    + rewrite Pp.
      assert (Ey : a_parents (objs s' y) = a_parents (objs s y)).
      { rewrite Ho. destruct (Nat.eqb y self) eqn:E; [apply Nat.eqb_eq in E; subst y|]; reflexivity. }
      unfold deref. simpl. rewrite Ey, Hk, (shared_count_inj s a_parents l rs y Up Hrs Hy).
      reflexivity.
    + rewrite Pc. unfold deref. simpl. rewrite Ho, Hk.
      destruct (Nat.eqb y self) eqn:E; simpl.
      * rewrite (shared_count_zero s a_parents l l Hl). apply app_nil_r.
      * rewrite shared_count_zero; [apply app_nil_r|].
        intros x Hx. apply Upc; [apply Hrs, Hx|exact Hy].
    + rewrite Ps. unfold deref. simpl. rewrite Ho.
      destruct (Nat.eqb y self) eqn:E; [apply Nat.eqb_eq in E; subst y|]; reflexivity.
Qed.

Lemma copy_model_agrees_witness :
  In cornelia seed_rs /\ incl (lists seed_ps_s0 seed_ps_l) seed_rs /\
  unshared_on seed_ps_s0 seed_rs seed_ps_l /\
  (List.length (lists seed_ps_s0 seed_ps_l) < seed_fuel)%nat /\
  exists s', aset_parents seed_fuel cornelia seed_ps_l seed_ps_s0 = Some s' /\
    forall y, In y seed_rs ->
      deref s' y = snd (set_parents cornelia (lists seed_ps_s0 seed_ps_l) (deref seed_ps_s0)) y.
Proof.
  assert (Hself : In cornelia seed_rs) by (left; reflexivity).
  assert (Hrs : incl (lists seed_ps_s0 seed_ps_l) seed_rs).
  { intros x Hx. vm_compute in Hx. destruct Hx as [<-|[<-|[]]]; vm_compute; tauto. }
  assert (Hu : unshared_on seed_ps_s0 seed_rs seed_ps_l).
  { split; [|split; [|split]].
    - intros x y Hx Hy. vm_compute in Hx, Hy.
      repeat (destruct Hx as [<-|Hx]); try destruct Hx;
      repeat (destruct Hy as [<-|Hy]); try destruct Hy;
      vm_compute; first [reflexivity | discriminate].
    - intros x y Hx Hy. vm_compute in Hx, Hy.
      repeat (destruct Hx as [<-|Hx]); try destruct Hx;
      repeat (destruct Hy as [<-|Hy]); try destruct Hy;
      vm_compute; first [reflexivity | discriminate].
    - intros x y Hx Hy. vm_compute in Hx, Hy.
      repeat (destruct Hx as [<-|Hx]); try destruct Hx;
      repeat (destruct Hy as [<-|Hy]); try destruct Hy;
      vm_compute; discriminate.
    - intros x Hx. vm_compute in Hx.
      repeat (destruct Hx as [<-|Hx]); try destruct Hx;
      vm_compute; split; discriminate. }
  assert (Hf : (List.length (lists seed_ps_s0 seed_ps_l) < seed_fuel)%nat) by (vm_compute; lia).
  split; [exact Hself|]. split; [exact Hrs|]. split; [exact Hu|]. split; [exact Hf|].
  exact (proj1 (copy_model_agrees seed_fuel seed_ps_s0 cornelia seed_ps_l seed_rs Hself Hrs Hu Hf)).
Defined.
